(** * Verification of the Day-2 embedding-classifier notebook

    Shallow embedding of the Python code of
    [genai-5day-course-with-google/codes/day-2-classifying-embedding-with-pytorch.ipynb]:
    the text cleaner, the balanced sampler, the two-layer classifier, the
    training loop with early stopping, and the inference function; and of
    [validate_query] of the function-calling notebook. *)

From Stdlib Require Import ZArith NArith QArith Reals Psatz List.
From Equations Require Import Equations.
From stdpp Require Import gmap strings list sorting lexico.

(** ** Python strings

    A Python [str] is a sequence of Unicode code points. *)

Definition codepoint := N.
Abbreviation str := (list codepoint).

(** [py_str] reads a Rocq string literal (ASCII) as a Python [str]. *)
Definition py_str (s : string) : str :=
  map Ascii.N_of_ascii (String.list_ascii_of_string s).

(** Keeps the equation of a [with] scrutinee in scope. *)
Definition inspect {A} (a : A) : {b | a = b} := exist _ a eq_refl.

(** ** The text cleaner: [preprocess_newsgroup_row] *)

Module TextCleaner.

Section Cleaner.

(** The table of non-ASCII code points that Python's [\w] accepts (the
    Unicode alphanumerics); the ASCII part of [\w] is written out. *)
Variable unicode_alnum : codepoint → bool.

Definition ascii_word (c : codepoint) : bool :=
  ((48 <=? c) && (c <=? 57) || (65 <=? c) && (c <=? 90)
   || (97 <=? c) && (c <=? 122) || (c =? 95))%N.

(** [\w] on a [str] pattern. *)
Definition re_word (c : codepoint) : bool :=
  if (c <? 128)%N then ascii_word c else unicode_alnum c.

(** The character class [[\w\.-]]. *)
Definition addr_char (c : codepoint) : bool :=
  re_word c || (c =? 46)%N || (c =? 45)%N.

(** The code point of ['@']. *)
Definition AT : codepoint := 64%N.

(** What is left of [l] after the longest run of [[\w\.-]] characters:
    the greedy [+] of the pattern. *)
Fixpoint skip_run (l : str) : str :=
  match l with
  | [] => []
  | c :: tl => if addr_char c then skip_run tl else l
  end.

(** [re.match(r"[\w\.-]+@[\w\.-]+", l)]: the text that follows the match
    anchored at the head of [l], if there is one.  Both runs are greedy;
    as ['@'] is outside the class, giving characters back never helps. *)
Definition match_here (l : str) : option str :=
  match l with
  | [] => None
  | c :: tl =>
      if addr_char c then
        match skip_run tl with
        | a :: d :: tl2 =>
            if (a =? AT)%N && addr_char d then Some (skip_run tl2) else None
        | _ => None
        end
      else None
  end.

Lemma skip_run_length l : length (skip_run l) ≤ length l.
Proof. induction l as [|c tl IH]; simpl; [lia|]. destruct (addr_char c); simpl; lia. Qed.

Lemma match_here_shorter l rest :
  match_here l = Some rest → length rest < length l.
Proof.
  destruct l as [|c tl]; simpl; [discriminate|].
  destruct (addr_char c); [|discriminate].
  pose proof (skip_run_length tl) as Htl.
  destruct (skip_run tl) as [|a [|d tl2]]; try discriminate.
  destruct (_ && _); [|discriminate].
  intros [= <-]. pose proof (skip_run_length tl2). simpl in *. lia.
Qed.

(** [re.sub(r"[\w\.-]+@[\w\.-]+", "", l)]: scan from the left; where a
    match starts, drop it and go on after it; otherwise keep the
    character and move one position on. *)
Equations re_sub (l : str) : str by wf (length l) lt :=
  re_sub [] := [];
  re_sub (c :: tl) with inspect (match_here (c :: tl)) := {
    | exist _ (Some rest) _ => re_sub rest
    | exist _ None _ => c :: re_sub tl }.
Next Obligation. intros c tl rest e _. exact (match_here_shorter (c :: tl) rest e). Qed.
Next Obligation. intros. simpl. lia. Qed.

(** A parsed message, as far as the cleaner looks at it: the value of
    [msg['Subject']] and the text of [msg.get_payload()]. *)
Record Message := {
  msg_subject : option str;
  msg_payload : str
}.

(** [email.message_from_string] of the Python standard library. *)
Variable message_from_string : str → Message.

(** [f"{msg['Subject']}\n\n{msg.get_payload()}"]: a missing header is
    formatted as [None]. *)
Definition subject_and_body (msg : Message) : str :=
  match msg_subject msg with
  | Some s => s
  | None => py_str "None"
  end ++ [10; 10]%N ++ msg_payload msg.

Definition preprocess_newsgroup_row (data : str) : str :=
  let msg := message_from_string data in
  let text := subject_and_body msg in
  let text := re_sub text in
  let text := take 5000 text in
  text.

(** *** What the pattern means *)

(** [w] is a full match of [[\w\.-]+@[\w\.-]+]. *)
Definition email_like (w : str) : Prop :=
  ∃ u v, w = u ++ AT :: v ∧ u ≠ [] ∧ v ≠ [] ∧
         Forall (λ c, addr_char c = true) u ∧
         Forall (λ c, addr_char c = true) v.

(** The pattern occurs somewhere in [s]. *)
Definition contains_email (s : str) : Prop :=
  ∃ pre w post, s = pre ++ w ++ post ∧ email_like w.

(** The shortest occurrences: one class character on either side of ['@']. *)
Definition at_between (s : str) : Prop :=
  ∃ pre c1 c2 post, s = pre ++ c1 :: AT :: c2 :: post ∧
                    addr_char c1 = true ∧ addr_char c2 = true.

(** *** Equations of the scanner *)

Lemma re_sub_cons c tl :
  re_sub (c :: tl) =
  match match_here (c :: tl) with
  | Some rest => re_sub rest
  | None => c :: re_sub tl
  end.
Proof.
  simp re_sub.
  destruct (inspect (match_here (c :: tl))) as [[rest|] e];
    set (kept := re_sub_unfold_clause_2 _ _ _); rewrite e; reflexivity.
Qed.

Lemma AT_outside_class : addr_char AT = false.
Proof. reflexivity. Qed.

Lemma match_here_outside c tl :
  addr_char c = false → match_here (c :: tl) = None.
Proof. intros H. simpl. by rewrite H. Qed.

(** A match one position to the right, after a class character, is also
    a match here: the scanner would have started earlier. *)
Lemma match_here_extend c tl rest :
  addr_char c = true → match_here tl = Some rest →
  match_here (c :: tl) = Some rest.
Proof.
  intros Hc. destruct tl as [|x tl']; [discriminate|].
  simpl. rewrite Hc. destruct (addr_char x); [done | discriminate].
Qed.

(** No match at [c :: '@' :: tl] although [c] is in the class: then the
    text after ['@'] does not start with a class character. *)
Lemma no_match_before_at c tl :
  addr_char c = true → match_here (c :: AT :: tl) = None →
  match tl with [] => True | d :: _ => addr_char d = false end.
Proof.
  intros Hc. cbn [match_here skip_run]. rewrite Hc, AT_outside_class.
  destruct tl as [|d tl']; [done|].
  rewrite N.eqb_refl. simpl. by destruct (addr_char d).
Qed.

(** The first character that the scanner keeps. *)
Lemma re_sub_head l y s :
  re_sub l = y :: s →
  (∃ tl, l = y :: tl ∧ match_here l = None ∧ s = re_sub tl) ∨
  (∃ rest, match_here l = Some rest ∧ re_sub rest = y :: s).
Proof.
  destruct l as [|c tl]; [by simp re_sub|].
  rewrite re_sub_cons. destruct (match_here (c :: tl)) as [rest|] eqn:E.
  - intros H. right. by exists rest.
  - intros [= -> <-]. left. by exists tl.
Qed.

(** *** The matcher against the pattern *)

Lemma skip_run_split l :
  ∃ u, l = u ++ skip_run l ∧ Forall (λ c, addr_char c = true) u.
Proof.
  induction l as [|c tl (u & Hu & HF)]; [by exists []|].
  simpl. destruct (addr_char c) eqn:Hc.
  - exists (c :: u). split; [by rewrite Hu at 1 | by constructor].
  - by exists [].
Qed.

Lemma skip_run_app u l :
  Forall (λ c, addr_char c = true) u → skip_run (u ++ l) = skip_run l.
Proof. induction 1 as [|c u Hc _ IH]; [done|]. simpl. by rewrite Hc. Qed.

(** A reported match is a full match of the pattern at the head. *)
Lemma match_here_sound l rest :
  match_here l = Some rest → ∃ w, l = w ++ rest ∧ email_like w.
Proof.
  destruct l as [|c tl]; [discriminate|]. simpl.
  destruct (addr_char c) eqn:Hc; [|discriminate].
  destruct (skip_run_split tl) as (u & Hu & HFu).
  destruct (skip_run tl) as [|a [|d tl2]]; try discriminate.
  destruct (N.eqb_spec a AT) as [->|]; [|discriminate].
  destruct (addr_char d) eqn:Hd; [|discriminate]. intros [= <-].
  destruct (skip_run_split tl2) as (v & Hv & HFv).
  exists ((c :: u) ++ AT :: d :: v). split.
  - rewrite Hu, Hv at 1. simpl. by rewrite <- !app_assoc.
  - exists (c :: u), (d :: v). repeat split; try done; by constructor.
Qed.

(** The reported match is the longest one: no class character follows. *)
Lemma skip_run_head l :
  match skip_run l with [] => True | d :: _ => addr_char d = false end.
Proof.
  induction l as [|c tl IH]; simpl; [done|].
  by destruct (addr_char c) eqn:Hc.
Qed.

Lemma match_here_greedy l rest :
  match_here l = Some rest →
  match rest with [] => True | d :: _ => addr_char d = false end.
Proof.
  destruct l as [|c tl]; [discriminate|]. simpl.
  destruct (addr_char c); [|discriminate].
  destruct (skip_run tl) as [|a [|d tl2]]; try discriminate.
  destruct (_ && _); [|discriminate]. intros [= <-]. apply skip_run_head.
Qed.

(** Wherever the pattern matches at the head, a match is reported. *)
Lemma match_here_complete w post :
  email_like w → is_Some (match_here (w ++ post)).
Proof.
  intros (u & v & -> & Hu & Hv & HFu & HFv).
  destruct u as [|c u]; [done|]. destruct v as [|d v]; [done|].
  inversion HFu as [|? ? Hc HFu']; inversion HFv as [|? ? Hd HFv']; subst.
  rewrite <- app_assoc. cbn [match_here app]. rewrite Hc.
  rewrite (skip_run_app u _ HFu'). cbn [skip_run app].
  rewrite AT_outside_class, N.eqb_refl, Hd. simpl. eauto.
Qed.

(** *** The shortest occurrences *)

Lemma at_between_nil : ¬ at_between [].
Proof. intros (pre & c1 & c2 & post & H & _). by destruct pre. Qed.

Lemma at_between_cons x s :
  at_between (x :: s) →
  at_between s ∨
  (addr_char x = true ∧ ∃ c2 post, s = AT :: c2 :: post ∧ addr_char c2 = true).
Proof.
  intros (pre & c1 & c2 & post & H & H1 & H2).
  destruct pre as [|p pre]; simpl in H; injection H as -> ->.
  - right. eauto.
  - left. by exists pre, c1, c2, post.
Qed.

Lemma contains_email_at_between s : contains_email s → at_between s.
Proof.
  intros (pre & w & post & -> & u & v & -> & Hu & Hv & HFu & HFv).
  destruct (exists_last Hu) as (u' & c1 & ->).
  destruct v as [|c2 v']; [done|].
  exists (pre ++ u'), c1, c2, (v' ++ post). split.
  - by rewrite <- !app_assoc.
  - apply Forall_app in HFu as [_ HFu].
    by inversion HFu; inversion HFv; subst.
Qed.

Lemma at_between_contains_email s : at_between s → contains_email s.
Proof.
  intros (pre & c1 & c2 & post & -> & H1 & H2).
  exists pre, [c1; AT; c2], post. split; [done|].
  exists [c1], [c2]. repeat split; try done; by repeat constructor.
Qed.

Lemma at_between_take n s : at_between (take n s) → at_between s.
Proof.
  intros (pre & c1 & c2 & post & H & H1 & H2).
  exists pre, c1, c2, (post ++ drop n s). split; [|done].
  rewrite <- (take_drop n s) at 1. rewrite H. by rewrite <- app_assoc.
Qed.

(** *** The scanner leaves no occurrence *)

Lemma re_sub_clean_le n : ∀ l, length l ≤ n → ¬ at_between (re_sub l).
Proof.
  induction n as [|n IH]; intros l Hlen.
  - destruct l; [|simpl in Hlen; lia]. simp re_sub. apply at_between_nil.
  - destruct l as [|c tl]; [simp re_sub; apply at_between_nil|].
    simpl in Hlen. rewrite re_sub_cons.
    destruct (match_here (c :: tl)) as [rest|] eqn:E.
    + apply IH. apply match_here_shorter in E. simpl in E. lia.
    + intros [Hin | (Hc & c2 & post & Hs & Hc2)]%at_between_cons.
      * revert Hin. apply IH. lia.
      * apply re_sub_head in Hs as [(tl' & -> & _ & Hs) | (rest & Hm & _)].
        -- pose proof (no_match_before_at c tl' Hc E) as Hd.
           symmetry in Hs.
           apply re_sub_head in Hs as [(tl'' & -> & _ & _) | (rest & Hm & _)].
           ++ congruence.
           ++ destruct tl' as [|d tl'']; [discriminate|].
              by rewrite (match_here_outside d tl'' Hd) in Hm.
        -- by rewrite (match_here_extend c tl rest Hc Hm) in E.
Qed.

Lemma re_sub_clean l : ¬ contains_email (re_sub l).
Proof.
  intros H%contains_email_at_between. by apply (re_sub_clean_le (length l) l).
Qed.

Lemma take_re_sub_clean n l : ¬ contains_email (take n (re_sub l)).
Proof.
  intros H%contains_email_at_between%at_between_take.
  by apply at_between_contains_email, re_sub_clean in H.
Qed.

(** *** What the cleaner keeps *)

Lemma contains_email_cons c s : contains_email s → contains_email (c :: s).
Proof. intros (pre & w & post & -> & Hw). by exists (c :: pre), w, post. Qed.

Lemma re_sub_clean_text l : ¬ contains_email l → re_sub l = l.
Proof.
  induction l as [|c tl IH]; intros Hclean; [by simp re_sub|].
  rewrite re_sub_cons. destruct (match_here (c :: tl)) as [rest|] eqn:E.
  - apply match_here_sound in E as (w & Hl & Hw).
    destruct Hclean. by exists [], w, rest.
  - f_equal. apply IH. intros H. by apply Hclean, contains_email_cons.
Qed.

Lemma re_sub_sublist_le n : ∀ l, length l ≤ n → re_sub l `sublist_of` l.
Proof.
  induction n as [|n IH]; intros l Hlen.
  - destruct l; [|simpl in Hlen; lia]. by simp re_sub.
  - destruct l as [|c tl]; [by simp re_sub|].
    simpl in Hlen. rewrite re_sub_cons.
    destruct (match_here (c :: tl)) as [rest|] eqn:E.
    + pose proof (match_here_shorter _ _ E) as Hshort. simpl in Hshort.
      apply match_here_sound in E as (w & -> & _).
      apply sublist_inserts_l, IH. lia.
    + apply sublist_skip, IH. lia.
Qed.

(** X26: a text without an e-mail-like substring goes through the cleaner
    unchanged, up to the truncation to 5000 characters. *)
Theorem preprocess_keeps_clean_text data :
  ¬ contains_email (subject_and_body (message_from_string data)) →
  preprocess_newsgroup_row data
    = take 5000 (subject_and_body (message_from_string data)).
Proof.
  intros Hclean. unfold preprocess_newsgroup_row. by rewrite re_sub_clean_text.
Qed.

(** X27: the cleaner only deletes: the characters of its result are
    characters of the subject, the empty line and the body, in their
    order; and cleaning a second time deletes nothing more. *)
Theorem preprocess_only_deletes data :
  preprocess_newsgroup_row data `sublist_of` subject_and_body (message_from_string data) ∧
  re_sub (preprocess_newsgroup_row data) = preprocess_newsgroup_row data.
Proof.
  unfold preprocess_newsgroup_row. split.
  - etrans; [apply sublist_take|]. by apply (re_sub_sublist_le _ _ (le_n _)).
  - apply re_sub_clean_text, take_re_sub_clean.
Qed.

End Cleaner.

(** C7: for every raw document, whatever the Unicode table and the parsed
    message, the text returned by [preprocess_newsgroup_row] contains no
    occurrence of the pattern [[\w\.-]+@[\w\.-]+]: no run of word, dot or
    dash characters, an ['@'], and another such run. *)
Theorem preprocess_redacts_emails unicode_alnum message_from_string data :
  ¬ contains_email unicode_alnum
      (preprocess_newsgroup_row unicode_alnum message_from_string data).
Proof.
  unfold preprocess_newsgroup_row.
  intros H%contains_email_at_between%at_between_take.
  by apply at_between_contains_email, re_sub_clean in H.
Qed.

(** C10: for every raw document, the text returned by
    [preprocess_newsgroup_row] has at most 5000 characters. *)
Theorem preprocess_length_bound unicode_alnum message_from_string data :
  length (preprocess_newsgroup_row unicode_alnum message_from_string data) ≤ 5000.
Proof. unfold preprocess_newsgroup_row. rewrite length_take. lia. Qed.

(** *** A document *)

(** A parser that stands for [email.message_from_string] on the post below. *)
Definition parsed_post (data : str) : Message :=
  {| msg_subject := Some (py_str "WHAT car is this!?");
     msg_payload := py_str "If anyone can tell me, mail lerxst@wam.umd.edu please." |}.

Example preprocess_post :
  preprocess_newsgroup_row (λ _, false) parsed_post
    (py_str "From: lerxst@wam.umd.edu (where's my thing)") =
  py_str "WHAT car is this!?" ++ [10; 10]%N
    ++ py_str "If anyone can tell me, mail  please.".
Proof. reflexivity. Qed.

(** The scan goes on after a match: the second ['@'] of [a@b@c] stays. *)
Example re_sub_twice :
  re_sub (λ _, false) (py_str "mail bob@example.com or a@b@c now") =
  py_str "mail  or @c now".
Proof. reflexivity. Qed.

(** A post without an address. *)
Definition parsed_plain_post (data : str) : Message :=
  {| msg_subject := Some (py_str "WHAT car is this!?");
     msg_payload := py_str "A 2-door sports car @ the lot." |}.

Lemma plain_post_clean :
  ¬ contains_email (λ _, false) (subject_and_body (parsed_plain_post [])).
Proof.
  assert (re_sub (λ _, false) (subject_and_body (parsed_plain_post []))
          = subject_and_body (parsed_plain_post [])) as <- by reflexivity.
  apply re_sub_clean.
Defined.

Lemma preprocess_keeps_clean_text_witness :
  ¬ contains_email (λ _, false) (subject_and_body (parsed_plain_post [])) ∧
  preprocess_newsgroup_row (λ _, false) parsed_plain_post []
    = take 5000 (subject_and_body (parsed_plain_post [])).
Proof.
  split; [exact plain_post_clean|].
  apply (preprocess_keeps_clean_text (λ _, false) parsed_plain_post []).
  exact plain_post_clean.
Defined.

End TextCleaner.

(** ** Python exceptions *)

Inductive exn :=
  | ValueError | NameError | ZeroDivisionError | RuntimeError | IndexError
  | AttributeError
  | ReError  (* [re.error] *).

Inductive result (A : Type) :=
  | Ok (a : A)
  | Raise (e : exn).
Arguments Ok {A} a.
Arguments Raise {A} e.

(** ** Pseudo-random choices

    NumPy's and PyTorch's generators are modelled by an oracle: an arbitrary
    stream of numbers that is read from left to right. *)

Module Random.

Record generator := { oracle : nat → nat; position : nat }.

Definition next (g : generator) : nat * generator :=
  (oracle g (position g), {| oracle := oracle g; position := S (position g) |}).

(** [k] elements of [pool] chosen one after the other without replacement
    (fewer when the pool runs out). *)
Fixpoint draw {A} (k : nat) (pool : list A) (g : generator) : list A * generator :=
  match k with
  | 0 => ([], g)
  | S k' =>
      let (r, g1) := next g in
      let i := r `mod` length pool in
      match pool !! i with
      | None => ([], g)
      | Some a => let (chosen, g2) := draw k' (delete i pool) g1 in (a :: chosen, g2)
      end
  end.

Lemma draw_length {A} k (pool : list A) g :
  k ≤ length pool → length (draw k pool g).1 = k.
Proof.
  revert pool g. induction k as [|k IH]; intros pool g Hk; [done|].
  simpl. destruct pool as [|a0 pool0] eqn:Hpool; [simpl in Hk; lia|].
  rewrite <- Hpool in *. assert (length pool ≠ 0) by (subst; done).
  pose proof (Nat.mod_upper_bound (oracle g (position g)) (length pool)) as Hi.
  destruct (lookup_lt_is_Some_2 pool _ (Hi ltac:(done))) as [a Ha].
  rewrite Ha. destruct (draw k _ _) as [chosen g2] eqn:Hd. simpl.
  f_equal. change chosen with (chosen, g2).1. rewrite <- Hd. apply IH.
  rewrite length_delete by eauto. lia.
Qed.

(** The choice is without replacement: what is drawn is a sub-multiset of
    the pool. *)
Lemma draw_submseteq {A} k (pool : list A) g : (draw k pool g).1 ⊆+ pool.
Proof.
  revert pool g. induction k as [|k IH]; intros pool g; simpl;
    [apply submseteq_nil_l|].
  destruct (pool !! _) as [a|] eqn:Ha; [|apply submseteq_nil_l].
  specialize (IH (delete (oracle g (position g) `mod` length pool) pool)
                 {| oracle := oracle g; position := S (position g) |}).
  destruct (draw k _ _) as [chosen g2]. simpl in *.
  rewrite (delete_Permutation pool _ a Ha). by apply submseteq_skip.
Qed.

Lemma draw_subset {A} k (pool : list A) g x :
  x ∈ (draw k pool g).1 → x ∈ pool.
Proof. intros Hx. by eapply elem_of_submseteq, draw_submseteq. Qed.

End Random.

(** ** Sorted lists without duplicates

    pandas orders the keys of a [groupby] and the categories of a
    categorical column; strings are compared code point by code point. *)

Module Ordered.

Section Sorted.
Context `{Lexico A, !StrictOrder (@lexico A _), !TrichotomyT (@lexico A _)}.

Fixpoint insert_sorted (x : A) (l : list A) : list A :=
  match l with
  | [] => [x]
  | y :: l' =>
      match trichotomyT lexico x y with
      | inleft (left _) => x :: l
      | inleft (right _) => l
      | inright _ => y :: insert_sorted x l'
      end
  end.

(** The distinct elements of [l] in increasing order. *)
Definition sorted_unique (l : list A) : list A := foldr insert_sorted [] l.

(** The position of [x] in [l], if it occurs. *)
Fixpoint position `{EqDecision A} (x : A) (l : list A) : option nat :=
  match l with
  | [] => None
  | y :: l' => if decide (x = y) then Some 0 else S <$> position x l'
  end.

Lemma elem_of_insert_sorted x y l : y ∈ insert_sorted x l ↔ y = x ∨ y ∈ l.
Proof.
  induction l as [|z l IH]; simpl.
  - rewrite list_elem_of_singleton, elem_of_nil. tauto.
  - destruct (trichotomyT lexico x z) as [[? | ->] | ?].
    + by rewrite elem_of_cons.
    + rewrite elem_of_cons. tauto.
    + rewrite !elem_of_cons, IH. tauto.
Qed.

Lemma elem_of_sorted_unique x l : x ∈ sorted_unique l ↔ x ∈ l.
Proof.
  induction l as [|y l IH]; simpl; [done|].
  rewrite elem_of_insert_sorted, IH, elem_of_cons. tauto.
Qed.

Lemma insert_sorted_sorted x l :
  StronglySorted lexico l → StronglySorted lexico (insert_sorted x l).
Proof.
  induction 1 as [|z l Hl IH Hz]; simpl; [by repeat constructor|].
  destruct (trichotomyT lexico x z) as [[Hlt | ->] | Hgt].
  - constructor; [by constructor|]. constructor; [done|].
    eapply Forall_impl; [exact Hz|]. intros w Hw. by etrans.
  - by constructor.
  - constructor; [done|]. apply Forall_forall.
    intros w [->|Hw]%elem_of_insert_sorted; [done|].
    rewrite Forall_forall in Hz. by apply Hz.
Qed.

Lemma sorted_unique_sorted l : StronglySorted lexico (sorted_unique l).
Proof. induction l; simpl; [constructor | by apply insert_sorted_sorted]. Qed.

Lemma StronglySorted_NoDup l : StronglySorted (@lexico A _) l → NoDup l.
Proof.
  induction 1 as [|z l Hl IH Hz]; constructor; [|done].
  intros Hin. rewrite Forall_forall in Hz.
  by apply (irreflexivity lexico z), Hz.
Qed.

Lemma sorted_unique_NoDup l : NoDup (sorted_unique l).
Proof. apply StronglySorted_NoDup, sorted_unique_sorted. Qed.


(** In an increasing list, earlier means smaller. *)
Lemma sorted_lookup_lt l i j a b :
  StronglySorted (@lexico A _) l → l !! i = Some a → l !! j = Some b →
  i < j → lexico a b.
Proof.
  intros Hl. revert i j. induction Hl as [|z l Hl IH Hz]; intros i j; [done|].
  destruct i as [|i], j as [|j]; simpl; try lia.
  - intros [= ->] Hb _. rewrite Forall_forall in Hz.
    apply Hz. by eapply list_elem_of_lookup_2.
  - intros Ha Hb Hij. apply (IH i j); [done..|lia].
Qed.

Lemma sorted_lookup_iff l i j a b :
  StronglySorted (@lexico A _) l → l !! i = Some a → l !! j = Some b →
  i < j ↔ lexico a b.
Proof.
  intros Hl Ha Hb. split; [by apply (sorted_lookup_lt l)|].
  intros Hab. destruct (Nat.lt_trichotomy i j) as [?|[->|Hji]]; [done|..].
  - rewrite Ha in Hb. injection Hb as ->. by destruct (irreflexivity lexico b).
  - pose proof (sorted_lookup_lt l j i b a Hl Hb Ha Hji) as Hba.
    destruct (irreflexivity lexico a). by etrans.
Qed.

Context `{EqDecision A}.




End Sorted.

End Ordered.

(** ** Data preparation: [sample_data] *)

Module Sampler.
Import Ordered.

(** A row of the frame that [preprocess_newsgroup_data] builds. *)
Record row := {
  Text : str;
  Label : Z;
  ClassName : str
}.

#[export] Instance row_eq_dec : EqDecision row.
Proof. solve_decision. Defined.

Abbreviation DataFrame := (list row).

(** A row of the result: the columns of the input and ['Encoded Label']. *)
Record encoded_row := {
  source : row;
  EncodedLabel : Z
}.

(** [x.sample(n)]: [n] rows chosen at random without replacement; pandas
    raises a [ValueError] for a negative [n] and for an [n] larger than the
    number of rows. *)
Definition sample (x : DataFrame) (n : Z) (g : Random.generator) :
    result DataFrame * Random.generator :=
  if (n <? 0)%Z then (Raise ValueError, g)
  else if (Z.of_nat (length x) <? n)%Z then (Raise ValueError, g)
  else let (chosen, g') := Random.draw (Z.to_nat n) x g in (Ok chosen, g').

(** [df.groupby("Label")]: the keys in increasing order, and the rows of a
    key in the order of the frame. *)
Definition group_keys (df : DataFrame) : list Z := sorted_unique (Label <$> df).

Definition group (df : DataFrame) (key : Z) : DataFrame :=
  filter (λ r, Label r = key) df.

(** [.apply(lambda x: x.sample(num_samples))]: group after group; the first
    error ends it. *)
Fixpoint apply_sample (groups : list DataFrame) (n : Z) (g : Random.generator) :
    result (list DataFrame) * Random.generator :=
  match groups with
  | [] => (Ok [], g)
  | x :: groups' =>
      match sample x n g with
      | (Raise e, g1) => (Raise e, g1)
      | (Ok chosen, g1) =>
          match apply_sample groups' n g1 with
          | (Raise e, g2) => (Raise e, g2)
          | (Ok rest, g2) => (Ok (chosen :: rest), g2)
          end
      end
  end.

(** [df['Class Name'].cat.codes]: the position of the name among the
    categories, [-1] for a value that is none of them. *)
Definition cat_code (categories : list str) (name : str) : Z :=
  match position name categories with
  | Some i => Z.of_nat i
  | None => (-1)%Z
  end.

Section SampleData.

(** [Series.str.contains(pat)] on one value, for a pattern that compiles:
    [str_contains pat name] tells whether [re.search] finds a match of
    [pat] in [name]. *)
Variable str_contains : str → str → bool.

Section Call.

(** [Series.str.contains(pat)] takes [pat] as a regular expression and
    compiles it before it looks at a value: [re_compiles pat] tells whether
    [re.compile] accepts [pat]; it raises [re.error] otherwise. *)
Variable re_compiles : str → bool.

(** The dtype of the [Class Name] column of a frame without rows.  pandas
    keeps the dtype of a column when no row is left, and a frame as the
    list of its rows does not have it: [true] for a column of strings
    (dtype [object], as in a frame that lost its rows to a filter),
    [false] for a numeric column (as in the frame that
    [preprocess_newsgroup_data] builds from a dataset without documents,
    where [Class Name] gets the dtype of [Label]). *)
Variable empty_names_are_strings : bool.

(** [df["Class Name"].str]: the accessor is there for a column of strings
    only, and raises an [AttributeError] otherwise.  A frame with rows has
    strings in this column. *)
Definition str_accessor (df : DataFrame) : result unit :=
  match df with
  | [] => if empty_names_are_strings then Ok () else Raise AttributeError
  | _ :: _ => Ok ()
  end.

Definition sample_data (df : DataFrame) (num_samples : Z) (classes_to_keep : str)
    (g : Random.generator) : result (list encoded_row) * Random.generator :=
  let input := df in
  (* sample equal number of samples from each class *)
  match apply_sample (group df <$> group_keys df) num_samples g with
  | (Raise e, g') => (Raise e, g')
  | (Ok sampled, g') =>
      let df := concat sampled in
      (* keep only specified classes; the sampled frame has the columns
         and the dtypes of the input *)
      match str_accessor input with
      | Raise e => (Raise e, g')
      | Ok _ =>
          if re_compiles classes_to_keep then
            let df := filter (λ r, str_contains classes_to_keep (ClassName r)) df in
            (* Re-encode labels starting from 0 *)
            let categories := sorted_unique (ClassName <$> df) in
            (Ok ((λ r, {| source := r;
                          EncodedLabel := cat_code categories (ClassName r) |}) <$> df),
             g')
          else (Raise ReError, g')
      end
  end.

End Call.

(** *** The terms of the specification *)

(** The retained classes of a frame: the distinct class names in which
    the filter pattern has a match, in sorted order. *)
Definition retained_classes (df : DataFrame) (classes_to_keep : str) : list str :=
  sorted_unique (filter (λ c, str_contains classes_to_keep c) (ClassName <$> df)).

(** Each class that is present has at least [n] documents. *)
Definition enough_documents (df : DataFrame) (n : Z) : Prop :=
  ∀ r, r ∈ df → (n ≤ Z.of_nat (length (group df (Label r))))%Z.

(** A dataset of [n * k] rows whose encoded labels are exactly
    [0 .. k - 1], each the position of the class name of its row among
    the sorted retained classes. *)
Definition balanced (df : DataFrame) (n : Z) (classes_to_keep : str)
    (out : list encoded_row) : Prop :=
  let retained := retained_classes df classes_to_keep in
  let k := Z.of_nat (length retained) in
  Z.of_nat (length out) = (n * k)%Z ∧
  (∀ j, (∃ r, r ∈ out ∧ EncodedLabel r = j) ↔ (0 ≤ j < k)%Z) ∧
  (∀ r, r ∈ out →
     retained !! Z.to_nat (EncodedLabel r) = Some (ClassName (source r))).

(** Labels and class names name the same classes: two rows have the same
    label exactly when they have the same class name. *)
Definition one_to_one (df : DataFrame) : Prop :=
  ∀ r1 r2, r1 ∈ df → r2 ∈ df → (Label r1 = Label r2 ↔ ClassName r1 = ClassName r2).

(** *** Sampling one group and all groups *)

Lemma sample_ok x n g :
  (0 ≤ n ≤ Z.of_nat (length x))%Z →
  ∃ chosen g', sample x n g = (Ok chosen, g') ∧
               length chosen = Z.to_nat n ∧ chosen ⊆+ x.
Proof.
  intros Hn. unfold sample.
  destruct (Z.ltb_spec n 0); [lia|].
  destruct (Z.ltb_spec (Z.of_nat (length x)) n); [lia|].
  pose proof (Random.draw_length (Z.to_nat n) x g) as Hlen.
  pose proof (Random.draw_submseteq (Z.to_nat n) x g) as Hsub.
  destruct (Random.draw _ _ _) as [chosen g']. simpl in *.
  exists chosen, g'. split_and!; [done | apply Hlen; lia | done].
Qed.

Lemma sample_too_few x n g :
  (Z.of_nat (length x) < n)%Z → sample x n g = (Raise ValueError, g).
Proof.
  intros Hn. unfold sample.
  destruct (Z.ltb_spec n 0); [done|].
  by destruct (Z.ltb_spec (Z.of_nat (length x)) n); [|lia].
Qed.

Lemma sample_raises x n g e g' : sample x n g = (Raise e, g') → e = ValueError.
Proof.
  unfold sample. repeat case_match; congruence.
Qed.

Lemma apply_sample_ok groups n g :
  (0 ≤ n)%Z → Forall (λ x, (n ≤ Z.of_nat (length x))%Z) groups →
  ∃ sampled g', apply_sample groups n g = (Ok sampled, g') ∧
    Forall2 (λ x chosen, length chosen = Z.to_nat n ∧ chosen ⊆+ x) groups sampled.
Proof.
  intros Hn Hall. revert g. induction Hall as [|x groups Hx _ IH]; intros g; simpl.
  - by exists [], g.
  - destruct (sample_ok x n g) as (chosen & g1 & -> & Hlen & Hsub); [lia|].
    destruct (IH g1) as (rest & g2 & -> & Hrest).
    exists (chosen :: rest), g2. split; [done|]. by constructor.
Qed.

Lemma apply_sample_too_few groups n g x :
  x ∈ groups → (Z.of_nat (length x) < n)%Z →
  ∃ g', apply_sample groups n g = (Raise ValueError, g').
Proof.
  intros Hin Hx. revert g.
  induction groups as [|y groups IH]; intros g; [by apply elem_of_nil in Hin|].
  simpl. destruct (sample y n g) as [[chosen|e] g1] eqn:Hy.
  - apply elem_of_cons in Hin as [->|Hin].
    + by rewrite sample_too_few in Hy.
    + destruct (IH Hin g1) as [g2 ->]. eauto.
  - apply sample_raises in Hy as ->. eauto.
Qed.

Lemma label_in_group_keys df r : r ∈ df → Label r ∈ group_keys df.
Proof.
  intros Hr. unfold group_keys. rewrite elem_of_sorted_unique.
  by apply list_elem_of_fmap_2.
Qed.

(** *** Counting the rows that the filter keeps *)

Lemma elem_of_group df key r : r ∈ group df key ↔ Label r = key ∧ r ∈ df.
Proof. unfold group. by rewrite list_elem_of_filter. Qed.

(** The class name of the rows of a label. *)
Definition name_of (df : DataFrame) (key : Z) : str :=
  match group df key with
  | r :: _ => ClassName r
  | [] => []
  end.

Lemma name_of_group df key r :
  one_to_one df → r ∈ group df key → ClassName r = name_of df key.
Proof.
  intros Hdf Hr. unfold name_of.
  destruct (group df key) as [|r0 rest] eqn:Hg; [by apply elem_of_nil in Hr|].
  assert (r0 ∈ group df key) as Hr0 by (rewrite Hg; left).
  rewrite <- Hg in Hr.
  apply elem_of_group in Hr as [Hl Hr], Hr0 as [Hl0 Hr0].
  apply Hdf; congruence.
Qed.

Lemma name_of_label df r : one_to_one df → r ∈ df → name_of df (Label r) = ClassName r.
Proof. intros Hdf Hr. symmetry. apply name_of_group; [done|]. by apply elem_of_group. Qed.

Lemma filter_all {A} (P : A → Prop) `{∀ x, Decision (P x)} (l : list A) :
  (∀ x, x ∈ l → P x) → filter P l = l.
Proof.
  induction l as [|x l IH]; intros Hall; [done|].
  rewrite filter_cons_True by (apply Hall; left).
  f_equal. apply IH. intros y Hy. apply Hall. by right.
Qed.

Lemma filter_none {A} (P : A → Prop) `{∀ x, Decision (P x)} (l : list A) :
  (∀ x, x ∈ l → ¬ P x) → filter P l = [].
Proof.
  induction l as [|x l IH]; intros Hall; [done|].
  rewrite filter_cons_False by (apply Hall; left).
  apply IH. intros y Hy. apply Hall. by right.
Qed.

Section Kept.
Variables (df : DataFrame) (pat : str) (n : nat).
Hypothesis Hdf : one_to_one df.

(** What the sampling step returns for a list of labels. *)
Definition sampled_from (keys : list Z) (sampled : list DataFrame) : Prop :=
  Forall2 (λ key chosen, length chosen = n ∧ chosen ⊆+ group df key) keys sampled.

Abbreviation kept := (filter (λ r, str_contains pat (ClassName r))).
Abbreviation kept_keys := (filter (λ key, str_contains pat (name_of df key))).

Lemma kept_of_group key chosen :
  chosen ⊆+ group df key →
  kept chosen = if str_contains pat (name_of df key) then chosen else [].
Proof.
  intros Hsub.
  assert (∀ r, r ∈ chosen → ClassName r = name_of df key) as Hname.
  { intros r Hr. apply name_of_group; [done|]. by eapply elem_of_submseteq. }
  destruct (str_contains pat (name_of df key)) eqn:Hc.
  - apply filter_all. intros r Hr. simpl. rewrite (Hname r Hr), Hc. exact I.
  - apply filter_none. intros r Hr. simpl. rewrite (Hname r Hr), Hc. intros [].
Qed.



Lemma elem_of_group_keys key : key ∈ group_keys df ↔ ∃ r, r ∈ df ∧ Label r = key.
Proof.
  unfold group_keys. rewrite elem_of_sorted_unique, list_elem_of_fmap.
  split; intros (r & H1 & H2); eauto.
Qed.



End Kept.

End SampleData.

(** C4: for every frame and count [n], if some class present in the frame
    (some label that occurs in it) has fewer than [n] documents, then
    [sample_data] raises a [ValueError], whatever the filter and the random
    choices are; it returns no result. *)
Theorem sample_data_too_few_documents str_contains re_compiles empty_names_are_strings
    (df : DataFrame) (n : Z) (classes_to_keep : str) (g : Random.generator) :
  (∃ r, r ∈ df ∧ (Z.of_nat (length (group df (Label r))) < n)%Z) →
  ∃ g', sample_data str_contains re_compiles empty_names_are_strings
          df n classes_to_keep g = (Raise ValueError, g').
Proof.
  intros (r & Hr & Hfew). unfold sample_data.
  destruct (apply_sample_too_few (group df <$> group_keys df) n g (group df (Label r)))
    as [g' ->]; [|done|by exists g'].
  by apply list_elem_of_fmap_2, label_in_group_keys.
Qed.

Lemma retained_classes_sorted str_contains df classes_to_keep :
  StronglySorted lexico (retained_classes str_contains df classes_to_keep).
Proof. apply sorted_unique_sorted. Qed.


(** In a balanced result the encoded labels follow the order of the class
    names. *)
Corollary balanced_label_order str_contains df n classes_to_keep out r1 r2 :
  balanced str_contains df n classes_to_keep out → r1 ∈ out → r2 ∈ out →
  (EncodedLabel r1 < EncodedLabel r2)%Z ↔
  lexico (ClassName (source r1)) (ClassName (source r2)).
Proof.
  intros (_ & Hj & Hpos) H1 H2.
  assert (0 ≤ EncodedLabel r1)%Z by (apply Hj; eauto).
  assert (0 ≤ EncodedLabel r2)%Z by (apply Hj; eauto).
  rewrite <- (sorted_lookup_iff _ _ _ _ _
                (retained_classes_sorted str_contains df classes_to_keep)
                (Hpos r1 H1) (Hpos r2 H2)).
  lia.
Qed.

(** *** The frames of the notebook: [preprocess_newsgroup_data] *)

(** The scikit-learn dataset: the documents, the target of each document,
    and the names of the targets. *)
Record Bunch := {
  data : list str;
  target : list Z;
  target_names : list str
}.

(** [l[i]] on a Python list: a negative index counts from the end. *)
Definition getitem {A} (l : list A) (i : Z) : result A :=
  let j := if (i <? 0)%Z then (i + Z.of_nat (length l))%Z else i in
  if (j <? 0)%Z then Raise IndexError
  else match l !! Z.to_nat j with
       | Some a => Ok a
       | None => Raise IndexError
       end.

Section Frame.
Variable unicode_alnum : codepoint → bool.
Variable message_from_string : str → TextCleaner.Message.

(** The three columns, row by row: the cleaned text, the label, and the
    readable name [target_names[label]]. *)
Fixpoint frame_rows (texts : list str) (labels : list Z) (names : list str) :
    result DataFrame :=
  match texts, labels with
  | text :: texts', label :: labels' =>
      match getitem names label, frame_rows texts' labels' names with
      | Ok name, Ok rows =>
          Ok ({| Text := TextCleaner.preprocess_newsgroup_row
                           unicode_alnum message_from_string text;
                 Label := label; ClassName := name |} :: rows)
      | Raise e, _ | _, Raise e => Raise e
      end
  | _, _ => Ok []
  end.

(** [pd.DataFrame] refuses columns of different lengths. *)
Definition preprocess_newsgroup_data (newsgroup_dataset : Bunch) : result DataFrame :=
  if length (data newsgroup_dataset) =? length (target newsgroup_dataset)
  then frame_rows (data newsgroup_dataset) (target newsgroup_dataset)
                  (target_names newsgroup_dataset)
  else Raise ValueError.

Lemma frame_rows_names texts labels names df r :
  frame_rows texts labels names = Ok df → r ∈ df →
  Label r ∈ labels ∧ getitem names (Label r) = Ok (ClassName r).
Proof.
  revert labels df. induction texts as [|text texts IH]; intros [|label labels] df; simpl;
    try (intros [= <-] Hr; by apply elem_of_nil in Hr).
  destruct (getitem names label) as [name|e] eqn:Hname; [|done].
  destruct (frame_rows texts labels names) as [rows|e] eqn:Hrows; [|done].
  intros [= <-] [-> | Hr]%elem_of_cons; simpl.
  - split; [left | done].
  - destruct (IH labels rows Hrows Hr). split; [by right | done].
Qed.



Lemma frame_rows_columns texts labels names df :
  length texts = length labels → frame_rows texts labels names = Ok df →
  Text <$> df = TextCleaner.preprocess_newsgroup_row unicode_alnum message_from_string
                  <$> texts ∧
  Label <$> df = labels ∧
  Forall2 (λ r t, getitem names t = Ok (ClassName r)) df labels.
Proof.
  revert labels df. induction texts as [|text texts IH]; intros [|label labels] df; simpl;
    try done.
  - intros _ [= <-]. by split_and!.
  - intros [= Hlen].
    destruct (getitem names label) as [name|e] eqn:Hname; [|done].
    destruct (frame_rows texts labels names) as [rows|e] eqn:Hrows; [|done].
    intros [= <-]. destruct (IH labels rows Hlen Hrows) as (HT & HL & HN).
    rewrite !fmap_cons, HT, HL. simpl. split_and!; [done..|].
    by constructor.
Qed.

(** X6: the frame that [preprocess_newsgroup_data] returns has one row per
    document, in the order of the dataset: the cleaned text of the
    document, its target, and the name that [target_names] has at the
    target.  Every text has at most 5000 characters and holds no
    e-mail-like substring. *)
Theorem preprocess_newsgroup_data_columns ds df :
  preprocess_newsgroup_data ds = Ok df →
  Text <$> df = TextCleaner.preprocess_newsgroup_row unicode_alnum message_from_string
                  <$> data ds ∧
  Label <$> df = target ds ∧
  Forall2 (λ r t, getitem (target_names ds) t = Ok (ClassName r)) df (target ds) ∧
  Forall (λ r, length (Text r) ≤ 5000 ∧
               ¬ TextCleaner.contains_email unicode_alnum (Text r)) df.
Proof.
  unfold preprocess_newsgroup_data.
  destruct (Nat.eqb_spec (length (data ds)) (length (target ds))) as [Hlen|]; [|done].
  intros (HT & HL & HN)%frame_rows_columns; [|done]. split_and!; [done..|].
  apply Forall_forall. intros r Hr.
  apply (list_elem_of_fmap_2 Text) in Hr. rewrite HT in Hr.
  apply list_elem_of_fmap in Hr as (text & -> & _).
  unfold TextCleaner.preprocess_newsgroup_row. split.
  - rewrite length_take. lia.
  - apply TextCleaner.take_re_sub_clean.
Qed.



(** X8: with distinct target names and targets that are not negative,
    labels and class names of the frame name the same classes: two rows
    have the same label exactly when they have the same class name. *)
Theorem preprocess_newsgroup_data_one_to_one ds df :
  preprocess_newsgroup_data ds = Ok df →
  NoDup (target_names ds) → Forall (λ t, (0 ≤ t)%Z) (target ds) →
  one_to_one df.
Proof.
  unfold preprocess_newsgroup_data. destruct (_ =? _); [|done].
  intros Hdf Hnd Hpos.
  assert (∀ r, r ∈ df → (0 ≤ Label r)%Z ∧
            target_names ds !! Z.to_nat (Label r) = Some (ClassName r)) as Hrow.
  { intros r Hr. destruct (frame_rows_names _ _ _ _ r Hdf Hr) as [Hl Hn].
    rewrite Forall_forall in Hpos. specialize (Hpos _ Hl). split; [done|].
    unfold getitem in Hn.
    assert ((Label r <? 0)%Z = false) as Hf by lia. rewrite !Hf in Hn.
    destruct (_ !! _); congruence. }
  intros r1 r2 [H1 N1]%Hrow [H2 N2]%Hrow. split.
  - intros Heq. rewrite Heq in N1. congruence.
  - intros Heq. rewrite Heq in N1.
    pose proof (NoDup_lookup _ _ _ _ Hnd N1 N2). lia.
Qed.

End Frame.

(** *** What every result of [sample_data] satisfies *)

Section Results.
Variable str_contains : str → str → bool.
Variable re_compiles : str → bool.
Variable empty_names_are_strings : bool.

Lemma sample_Ok x n g chosen g' :
  sample x n g = (Ok chosen, g') →
  (0 ≤ n ≤ Z.of_nat (length x))%Z ∧ length chosen = Z.to_nat n ∧ chosen ⊆+ x.
Proof.
  intros Hs. assert (0 ≤ n ≤ Z.of_nat (length x))%Z as Hn.
  { unfold sample in Hs.
    destruct (Z.ltb_spec n 0); [done|].
    destruct (Z.ltb_spec (Z.of_nat (length x)) n); [done|]. lia. }
  split; [done|].
  destruct (sample_ok x n g Hn) as (chosen' & g'' & Hs' & Hlen & Hsub).
  rewrite Hs in Hs'. by injection Hs' as -> ->.
Qed.

Lemma apply_sample_Ok groups n g sampled g' :
  apply_sample groups n g = (Ok sampled, g') →
  Forall2 (λ x chosen, length chosen = Z.to_nat n ∧ chosen ⊆+ x) groups sampled ∧
  Forall (λ x, (0 ≤ n ≤ Z.of_nat (length x))%Z) groups.
Proof.
  revert g sampled. induction groups as [|x groups IH]; intros g sampled; simpl.
  - intros [= <- _]. by split.
  - destruct (sample x n g) as [[chosen|e] g1] eqn:Hx; [|done].
    destruct (apply_sample groups n g1) as [[rest|e] g2] eqn:Hrest; [|done].
    intros [= <- <-]. apply sample_Ok in Hx as (Hn & Hlen & Hsub).
    destruct (IH _ _ Hrest). split; by constructor.
Qed.

(** A successful call took [num_samples] rows of every label group and
    kept the rows that the filter accepts. *)
Lemma sample_data_Ok df n pat g out g' :
  sample_data str_contains re_compiles empty_names_are_strings df n pat g = (Ok out, g') →
  ∃ sampled,
    sampled_from df (Z.to_nat n) (group_keys df) sampled ∧
    (df ≠ [] → (0 ≤ n)%Z) ∧
    let df2 := filter (λ r, str_contains pat (ClassName r)) (concat sampled) in
    source <$> out = df2 ∧
    ∀ r, r ∈ out →
      EncodedLabel r = cat_code (sorted_unique (ClassName <$> df2)) (ClassName (source r)).
Proof.
  unfold sample_data.
  destruct (apply_sample _ n g) as [[sampled|e] g1] eqn:Hs; [|done].
  destruct (str_accessor _ df); [|done].
  destruct (re_compiles pat); [|done].
  intros [= <- _]. apply apply_sample_Ok in Hs as [Hs Hn].
  apply Forall2_fmap_l in Hs. exists sampled. split; [done|]. split.
  - destruct df as [|r df]; [done|]. intros _.
    assert (Label r ∈ group_keys (r :: df)) as Hk by (apply label_in_group_keys; left).
    rewrite Forall_fmap, Forall_forall in Hn. specialize (Hn _ Hk). simpl in Hn. lia.
  - simpl. split.
    + rewrite <- list_fmap_compose. apply list_fmap_id.
    + by intros r (r0 & -> & _)%list_elem_of_fmap.
Qed.

(** The label groups, put together, are the frame. *)
Lemma groups_of_keys df keys :
  NoDup keys → concat (group df <$> keys) ≡ₚ filter (λ r, Label r ∈ keys) df.
Proof.
  induction 1 as [|k keys Hk Hnd IH]; simpl.
  - symmetry. apply Permutation_nil_r, filter_none. intros r _ ?%elem_of_nil. done.
  - rewrite IH. clear IH. unfold group.
    induction df as [|r df IHdf]; [done|].
    destruct (decide (Label r = k)) as [Hrk|Hrk].
    + rewrite (filter_cons_True (λ r, Label r = k)) by done.
      rewrite (filter_cons_True (λ r, Label r ∈ k :: keys)) by (rewrite Hrk; left).
      rewrite (filter_cons_False (λ r, Label r ∈ keys)) by (by rewrite Hrk).
      simpl. by rewrite IHdf.
    + rewrite (filter_cons_False (λ r, Label r = k)) by done.
      destruct (decide (Label r ∈ keys)) as [Hin|Hin].
      * rewrite (filter_cons_True (λ r, Label r ∈ k :: keys)) by (by right).
        rewrite (filter_cons_True (λ r, Label r ∈ keys)) by done.
        rewrite <- Permutation_middle. by rewrite IHdf.
      * rewrite (filter_cons_False (λ r, Label r ∈ k :: keys))
          by (by intros [?|?]%elem_of_cons).
        by rewrite (filter_cons_False (λ r, Label r ∈ keys)) by done.
Qed.

Lemma groups_partition df : concat (group df <$> group_keys df) ≡ₚ df.
Proof.
  rewrite groups_of_keys by apply sorted_unique_NoDup.
  rewrite filter_all; [done|]. intros r Hr. by apply label_in_group_keys.
Qed.

Lemma sampled_submseteq df n keys sampled :
  sampled_from df n keys sampled → concat sampled ⊆+ concat (group df <$> keys).
Proof.
  induction 1 as [|key chosen keys sampled [_ Hsub] _ IH]; simpl; [done|].
  by apply submseteq_app.
Qed.

(** *** Where the filter raises *)

(** X28: when the sampling step goes through (a count that is not negative
    and at most the size of every label group), a filter that does not
    compile as a regular expression raises [re.error], on every frame with
    rows and on a frame without rows whose [Class Name] column holds
    strings. *)
Theorem sample_data_invalid_pattern df n pat g :
  (df = [] → empty_names_are_strings = true) →
  (0 ≤ n)%Z → enough_documents df n → re_compiles pat = false →
  ∃ g', sample_data str_contains re_compiles empty_names_are_strings df n pat g
        = (Raise ReError, g').
Proof.
  intros Hstr Hn Henough Hpat. unfold sample_data.
  destruct (apply_sample_ok (group df <$> group_keys df) n g)
    as (sampled & g' & -> & _); [done | |].
  { apply Forall_fmap, Forall_forall.
    intros key (r & Hr & <-)%elem_of_group_keys. by apply Henough. }
  exists g'. cbv zeta. rewrite Hpat.
  destruct df as [|r df]; simpl; [by rewrite Hstr|done].
Qed.

(** On a frame without rows whose [Class Name] column is numeric,
    [sample_data] raises an [AttributeError] at the [.str] accessor,
    whatever the count (a negative one as well: no group is sampled) and
    the filter are. *)
Lemma sample_data_empty_numeric n pat g :
  empty_names_are_strings = false →
  sample_data str_contains re_compiles empty_names_are_strings [] n pat g
    = (Raise AttributeError, g).
Proof. intros Hnum. unfold sample_data. simpl. by rewrite Hnum. Qed.

(** X1: whenever [sample_data] returns a dataset, its rows are rows of the
    input frame, none taken more often than the input has it, and the
    class name of each of them is accepted by the filter. *)
Theorem sample_data_rows_of_input df n pat g out g' :
  sample_data str_contains re_compiles empty_names_are_strings df n pat g = (Ok out, g') →
  source <$> out ⊆+ df ∧
  ∀ r, r ∈ out → str_contains pat (ClassName (source r)) = true.
Proof.
  intros (sampled & Hfrom & _ & Hsrc & _)%sample_data_Ok. simpl in Hsrc. split.
  - rewrite Hsrc. etrans; [apply sublist_submseteq, sublist_filter; apply _|].
    etrans; [by eapply sampled_submseteq|]. by rewrite groups_partition.
  - intros r Hr. apply (list_elem_of_fmap_2 source) in Hr. rewrite Hsrc in Hr.
    apply list_elem_of_filter in Hr as [Hc _]. by apply Is_true_true.
Qed.


Lemma apply_sample_raises groups n g e g' :
  apply_sample groups n g = (Raise e, g') → e = ValueError.
Proof.
  revert g g'. induction groups as [|x groups IH]; intros g g'; simpl; [done|].
  destruct (sample x n g) as [[chosen|e1] g1] eqn:Hx.
  - destruct (apply_sample groups n g1) as [[rest|e2] g2] eqn:Hrest; [done|].
    intros [= <- _]. by eapply IH.
  - intros [= <- _]. by eapply sample_raises.
Qed.

(** X3: a negative count is refused: on a frame that is not empty,
    [sample_data] raises a [ValueError] for every negative [num_samples]. *)
Theorem sample_data_negative df n pat g :
  df ≠ [] → (n < 0)%Z →
  ∃ g', sample_data str_contains re_compiles empty_names_are_strings df n pat g
        = (Raise ValueError, g').
Proof.
  intros Hdf Hn. unfold sample_data.
  destruct (apply_sample _ n g) as [[sampled|e'] g1] eqn:Ha.
  - apply apply_sample_Ok in Ha as [_ Hall]. destruct df as [|r df]; [done|].
    assert (Label r ∈ group_keys (r :: df)) as Hk by (apply label_in_group_keys; left).
    rewrite Forall_fmap, Forall_forall in Hall. specialize (Hall _ Hk). simpl in Hall. lia.
  - exists g1. by apply apply_sample_raises in Ha as ->.
Qed.

(** *** Balance and encoding *)

Lemma length_filter_fmap {A B} (f : A → B) (P : B → Prop) `{∀ y, Decision (P y)}
    (l : list A) :
  length (filter (λ x, P (f x)) l) = length (filter P (f <$> l)).
Proof.
  induction l as [|x l IH]; [done|]. simpl.
  destruct (decide (P (f x))).
  - rewrite !filter_cons_True by done. simpl. by rewrite IH.
  - by rewrite !filter_cons_False by done.
Qed.

(** The rows of one class among the rows kept from the samples of
    distinct labels. *)
Lemma length_kept_class df pat n keys sampled r0 :
  one_to_one df → r0 ∈ df → NoDup keys → (∀ k, k ∈ keys → k ∈ group_keys df) →
  sampled_from df n keys sampled →
  length (filter (λ r, ClassName r = ClassName r0)
            (filter (λ r, str_contains pat (ClassName r)) (concat sampled))) =
  if str_contains pat (ClassName r0)
  then (if decide (Label r0 ∈ keys) then n else 0) else 0.
Proof.
  intros Hdf Hr0 Hnd Hkeys Hs. induction Hs as [|key chosen keys sampled [Hlen Hsub] _ IH].
  { simpl. by destruct (str_contains _ _). }
  apply NoDup_cons in Hnd as [Hkey Hnd].
  simpl. rewrite !filter_app, length_app.
  rewrite IH by (done || intros; apply Hkeys; by right). clear IH.
  rewrite (kept_of_group str_contains df pat Hdf key chosen Hsub).
  assert (key ∈ group_keys df) as (rk & Hrk & <-)%elem_of_group_keys
    by (apply Hkeys; left).
  rewrite (name_of_label df rk Hdf Hrk).
  assert (∀ r, r ∈ chosen → ClassName r = ClassName rk) as Hname.
  { intros r Hr. rewrite (name_of_group df (Label rk) r Hdf), name_of_label; [done..|].
    by eapply elem_of_submseteq. }
  destruct (decide (Label r0 = Label rk)) as [Heq|Hne].
  - assert (ClassName rk = ClassName r0) as Hc by (symmetry; by apply Hdf).
    rewrite Hc in *. rewrite <- Heq in Hkey.
    rewrite (decide_True (P:=Label r0 ∈ Label rk :: keys)) by (rewrite Heq; left).
    rewrite (decide_False (P:=Label r0 ∈ keys)) by done.
    destruct (str_contains pat (ClassName r0)); [|done].
    rewrite filter_all by done. lia.
  - assert (ClassName rk ≠ ClassName r0) as Hc
      by (intros Hc; apply Hne; symmetry; by apply Hdf).
    assert (filter (λ r, ClassName r = ClassName r0)
              (if str_contains pat (ClassName rk) then chosen else []) = []) as ->.
    { destruct (str_contains pat (ClassName rk)); [|done].
      apply filter_none. intros r Hr. by rewrite (Hname r Hr). }
    simpl. destruct (str_contains pat (ClassName r0)); [|done].
    destruct (decide (Label r0 ∈ keys)).
    + by rewrite decide_True by (by right).
    + by rewrite decide_False by (by intros [?|?]%elem_of_cons).
Qed.

(** X4: in a frame in which labels and class names name the same classes,
    a successful call gives every class that the filter accepts exactly
    [num_samples] rows, and every other class none. *)
Theorem sample_data_class_balance df n pat g out g' r0 :
  one_to_one df → r0 ∈ df →
  sample_data str_contains re_compiles empty_names_are_strings df n pat g = (Ok out, g') →
  Z.of_nat (length (filter (λ r, ClassName (source r) = ClassName r0) out)) =
  if str_contains pat (ClassName r0) then n else 0%Z.
Proof.
  intros Hdf Hr0 (sampled & Hfrom & Hpos & Hsrc & _)%sample_data_Ok. simpl in Hsrc.
  pose proof (length_filter_fmap source (λ r, ClassName r = ClassName r0) out) as Hlen.
  simpl in Hlen. rewrite Hlen, Hsrc. clear Hlen.
  rewrite (length_kept_class df pat (Z.to_nat n) (group_keys df) sampled r0);
    [|done|done|apply sorted_unique_NoDup|done|done].
  rewrite decide_True by (by apply label_in_group_keys).
  destruct (str_contains pat (ClassName r0)); [|done].
  assert (df ≠ []) as Hne by (intros ->; by apply elem_of_nil in Hr0).
  specialize (Hpos Hne). lia.
Qed.



End Results.

(** *** Small frames *)

(** A pattern of lower-case letters such as ["sci"] compiles, and what
    [str.contains] computes for it is whether it occurs in the name.  (No
    other pattern is used below.) *)
Definition letters_only (pat : str) : bool :=
  forallb (λ c, (97 <=? c) && (c <=? 122))%N pat.

Definition substring (pat name : str) : bool :=
  existsb (λ i, bool_decide (take (length pat) (drop i name) = pat))
          (seq 0 (S (length name))).

Definition doc (text : string) (label : Z) (name : string) : row :=
  {| Text := py_str text; Label := label; ClassName := py_str name |}.

Definition generator0 : Random.generator :=
  {| Random.oracle := λ i, i; Random.position := 0 |}.



(** Three classes, two of them science classes. *)
Definition three_classes : DataFrame :=
  [doc "a" 13 "sci.med"; doc "b" 7 "rec.autos"; doc "c" 11 "sci.crypt"].

Example sample_three_classes :
  (sample_data substring letters_only true three_classes 1 (py_str "sci") generator0).1 =
  Ok [ {| source := doc "c" 11 "sci.crypt"; EncodedLabel := 0 |};
       {| source := doc "a" 13 "sci.med"; EncodedLabel := 1 |} ].
Proof. reflexivity. Qed.



Lemma sample_data_too_few_documents_witness :
  (∃ r, r ∈ three_classes ∧ (Z.of_nat (length (group three_classes (Label r))) < 2)%Z) ∧
  ∃ g', sample_data substring letters_only true three_classes 2 (py_str "sci") generator0
        = (Raise ValueError, g').
Proof.
  assert (∃ r, r ∈ three_classes ∧
               (Z.of_nat (length (group three_classes (Label r))) < 2)%Z) as H.
  { exists (doc "a" 13 "sci.med"). split; [left | by vm_compute]. }
  split; [exact H|].
  exact (sample_data_too_few_documents substring letters_only true three_classes 2 (py_str "sci") generator0 H).
Defined.

(** *** The small frames again *)

Definition sampled_three : list encoded_row :=
  [ {| source := doc "c" 11 "sci.crypt"; EncodedLabel := 0 |};
    {| source := doc "a" 13 "sci.med"; EncodedLabel := 1 |} ].

Definition generator_after (n : nat) : Random.generator :=
  {| Random.oracle := λ i, i; Random.position := n |}.



Lemma three_classes_one_to_one : one_to_one three_classes.
Proof.
  intros r1 r2 Hr1 Hr2.
  repeat (apply elem_of_cons in Hr1 as [-> | Hr1]); [..|by apply elem_of_nil in Hr1];
  (repeat (apply elem_of_cons in Hr2 as [-> | Hr2]); [..|by apply elem_of_nil in Hr2]);
  by vm_compute.
Qed.


Lemma three_classes_enough : enough_documents three_classes 1.
Proof.
  intros r Hr. repeat (apply elem_of_cons in Hr as [-> | Hr]); [by vm_compute..|].
  by apply elem_of_nil in Hr.
Defined.

Lemma sample_data_invalid_pattern_witness :
  (three_classes = [] → true = true) ∧ (0 ≤ 1)%Z ∧ enough_documents three_classes 1 ∧
  letters_only (py_str "(sci") = false ∧
  ∃ g', sample_data substring letters_only true three_classes 1 (py_str "(sci") generator0
        = (Raise ReError, g').
Proof.
  split; [reflexivity|]. split; [lia|]. split; [exact three_classes_enough|].
  split; [reflexivity|].
  apply (sample_data_invalid_pattern substring letters_only true three_classes 1
           (py_str "(sci") generator0);
    [reflexivity | lia | exact three_classes_enough | reflexivity].
Defined.

Lemma sample_data_rows_of_input_witness :
  sample_data substring letters_only true three_classes 1 (py_str "sci") generator0
    = (Ok sampled_three, generator_after 3) ∧
  source <$> sampled_three ⊆+ three_classes ∧
  ∀ r, r ∈ sampled_three → substring (py_str "sci") (ClassName (source r)) = true.
Proof.
  split; [reflexivity|].
  exact (sample_data_rows_of_input substring letters_only true three_classes 1 (py_str "sci") generator0
           sampled_three (generator_after 3) eq_refl).
Defined.


Lemma sample_data_negative_witness :
  three_classes ≠ [] ∧ (-1 < 0)%Z ∧
  ∃ g', sample_data substring letters_only true three_classes (-1) (py_str "sci") generator0
        = (Raise ValueError, g').
Proof.
  assert (three_classes ≠ []) as H by discriminate.
  split; [exact H|]. split; [lia|].
  apply (sample_data_negative substring letters_only true three_classes (-1) (py_str "sci") generator0 H).
  lia.
Defined.

Lemma sample_data_class_balance_witness :
  one_to_one three_classes ∧ doc "a" 13 "sci.med" ∈ three_classes ∧
  sample_data substring letters_only true three_classes 1 (py_str "sci") generator0
    = (Ok sampled_three, generator_after 3) ∧
  Z.of_nat (length (filter (λ r, ClassName (source r) = ClassName (doc "a" 13 "sci.med"))
                      sampled_three)) =
  if substring (py_str "sci") (ClassName (doc "a" 13 "sci.med")) then 1%Z else 0%Z.
Proof.
  assert (doc "a" 13 "sci.med" ∈ three_classes) as Hin by left.
  split; [exact three_classes_one_to_one|]. split; [exact Hin|]. split; [reflexivity|].
  exact (sample_data_class_balance substring letters_only true three_classes 1 (py_str "sci") generator0
           sampled_three (generator_after 3) _ three_classes_one_to_one Hin eq_refl).
Defined.


(** Two posts of a dataset with two target names. *)
Definition two_posts : Bunch :=
  {| data := [py_str "From: a@b.c"; py_str "From: d@e.f"];
     target := [1; 0]%Z;
     target_names := [py_str "alt.atheism"; py_str "sci.med"] |}.

Definition two_posts_frame : DataFrame :=
  [ {| Text := TextCleaner.preprocess_newsgroup_row (λ _, false) TextCleaner.parsed_post
                 (py_str "From: a@b.c");
       Label := 1; ClassName := py_str "sci.med" |};
    {| Text := TextCleaner.preprocess_newsgroup_row (λ _, false) TextCleaner.parsed_post
                 (py_str "From: d@e.f");
       Label := 0; ClassName := py_str "alt.atheism" |} ].

Lemma preprocess_newsgroup_data_columns_witness :
  preprocess_newsgroup_data (λ _, false) TextCleaner.parsed_post two_posts
    = Ok two_posts_frame ∧
  Text <$> two_posts_frame =
    TextCleaner.preprocess_newsgroup_row (λ _, false) TextCleaner.parsed_post
      <$> data two_posts ∧
  Label <$> two_posts_frame = target two_posts ∧
  Forall2 (λ r t, getitem (target_names two_posts) t = Ok (ClassName r))
    two_posts_frame (target two_posts) ∧
  Forall (λ r, length (Text r) ≤ 5000 ∧
               ¬ TextCleaner.contains_email (λ _, false) (Text r)) two_posts_frame.
Proof.
  split; [reflexivity|].
  exact (preprocess_newsgroup_data_columns (λ _, false) TextCleaner.parsed_post
           two_posts two_posts_frame eq_refl).
Defined.


Lemma preprocess_newsgroup_data_one_to_one_witness :
  preprocess_newsgroup_data (λ _, false) TextCleaner.parsed_post two_posts
    = Ok two_posts_frame ∧
  NoDup (target_names two_posts) ∧ Forall (λ t, (0 ≤ t)%Z) (target two_posts) ∧
  one_to_one two_posts_frame.
Proof.
  assert (NoDup (target_names two_posts)) as Hnd.
  { apply NoDup_cons. split; [|apply NoDup_singleton].
    rewrite list_elem_of_singleton. vm_compute. discriminate. }
  assert (Forall (λ t, (0 ≤ t)%Z) (target two_posts)) as Hpos
    by (repeat constructor; lia).
  split; [reflexivity|]. split; [exact Hnd|]. split; [exact Hpos|].
  exact (preprocess_newsgroup_data_one_to_one (λ _, false) TextCleaner.parsed_post
           two_posts two_posts_frame eq_refl Hnd Hpos).
Defined.

End Sampler.

(** ** The classifier: [NewsGroupClassifier] *)

Module Classifier.

Abbreviation vec := (list Q).
(** A matrix is the list of its rows. *)
Abbreviation mat := (list vec).

(** [x @ w]: the sum of the products, left to right. *)
Definition dot (x w : vec) : Q := foldr Qplus 0%Q (zip_with Qmult x w).

(** The weight of an [nn.Linear]: a tensor of shape
    [(out_features, in_features)].  The rows alone do not tell the number
    of columns when there is no row, so it is kept beside them. *)
Record weight := {
  in_features : nat;
  entries : mat
}.

(** [torch.nn.functional.linear(x, W, b)] is [x @ W.T + b]; shapes that do
    not fit raise a [RuntimeError]. *)
Definition linear (W : weight) (b : vec) (x : vec) : result vec :=
  if (length x =? in_features W)
     && forallb (λ row, length row =? length x) (entries W)
     && (length b =? length (entries W))
  then Ok (zip_with Qplus (map (dot x) (entries W)) b)
  else Raise RuntimeError.

(** [torch.relu]: [max(0, x)]. *)
Definition relu (x : Q) : Q := if Qle_bool 0 x then x else 0%Q.

(** The modules of the [nn.Sequential], with the values of their
    parameters. *)
Inductive layer :=
  | Linear (W : weight) (bias : vec)
  | ReLU.

Definition layer_forward (l : layer) (x : vec) : result vec :=
  match l with
  | Linear W b => linear W b x
  | ReLU => Ok (map relu x)
  end.

(** [nn.Sequential.forward]: each module is applied to the output of the
    one before it. *)
Fixpoint sequential (ls : list layer) (x : vec) : result vec :=
  match ls with
  | [] => Ok x
  | l :: ls' =>
      match layer_forward l x with
      | Ok y => sequential ls' y
      | Raise e => Raise e
      end
  end.

(** The values of the four parameter tensors of the classifier. *)
Record params := {
  W1 : weight; b1 : vec;
  W2 : weight; b2 : vec
}.

(** [self.model] as built by [__init__]:
    [nn.Sequential(nn.Linear(..), nn.ReLU(), nn.Linear(..))]. *)
Definition model (p : params) : list layer :=
  [Linear (W1 p) (b1 p); ReLU; Linear (W2 p) (b2 p)].

(** [NewsGroupClassifier.forward]. *)
Definition forward (p : params) (X : vec) : result vec := sequential (model p) X.

(** On a batch, [forward] works row by row. *)
Fixpoint forward_batch (p : params) (Xs : mat) : result mat :=
  match Xs with
  | [] => Ok []
  | X :: Xs' =>
      match forward p X with
      | Ok y => match forward_batch p Xs' with
                | Ok ys => Ok (y :: ys)
                | Raise e => Raise e
                end
      | Raise e => Raise e
      end
  end.

(** The shapes that [__init__(input_size, hidden_size, num_classes)] gives
    the parameters. *)
Definition has_shape (rows cols : nat) (W : weight) : Prop :=
  in_features W = cols ∧
  length (entries W) = rows ∧ Forall (λ row, length row = cols) (entries W).

Record well_shaped (D H K : nat) (p : params) : Prop := {
  W1_shape : has_shape H D (W1 p);
  b1_shape : length (b1 p) = H;
  W2_shape : has_shape K H (W2 p);
  b2_shape : length (b2 p) = K
}.

(** *** The contract in the words of the specification *)

(** [W·x]: component [i] is the sum over [j] of [W i j * x j]. *)
Definition mat_vec (W : mat) (x : vec) : vec :=
  map (λ row, foldr Qplus 0%Q (zip_with Qmult row x)) W.

Definition vec_add (u v : vec) : vec := zip_with Qplus u v.

(** [W2·relu(W1·x + b1) + b2]. *)
Definition two_layer_spec (p : params) (x : vec) : vec :=
  vec_add (mat_vec (entries (W2 p))
             (map relu (vec_add (mat_vec (entries (W1 p)) x) (b1 p))))
          (b2 p).

(** *** Proofs *)

Lemma Qmult_comm_eq (a b : Q) : (a * b = b * a)%Q.
Proof. unfold Qmult. f_equal; [apply Z.mul_comm | apply Pos.mul_comm]. Qed.

Lemma dot_comm x w : dot x w = foldr Qplus 0%Q (zip_with Qmult w x).
Proof.
  unfold dot. revert w. induction x as [|a x IH]; intros [|b w]; simpl; try done.
  by rewrite IH, Qmult_comm_eq.
Qed.

Lemma map_dot_mat_vec W x : map (dot x) W = mat_vec W x.
Proof. unfold mat_vec. apply map_ext. intros row. apply dot_comm. Qed.

Lemma linear_ok rows cols W b x :
  has_shape rows cols W → length b = rows → length x = cols →
  linear W b x = Ok (vec_add (mat_vec (entries W) x) b).
Proof.
  intros (Hin & Hrows & Hcols) Hb Hx. unfold linear.
  assert ((length x =? in_features W) = true) as -> by (apply Nat.eqb_eq; lia).
  assert (forallb (λ row, length row =? length x) (entries W) = true) as ->.
  { apply forallb_forall. intros row Hrow%list_elem_of_In.
    rewrite Forall_forall in Hcols. apply Nat.eqb_eq. rewrite Hx. by apply Hcols. }
  assert ((length b =? length (entries W)) = true) as -> by (apply Nat.eqb_eq; lia).
  simpl. by rewrite map_dot_mat_vec.
Qed.

Lemma length_vec_add u v : length (vec_add u v) = min (length u) (length v).
Proof. apply length_zip_with. Qed.

Lemma length_mat_vec W x : length (mat_vec W x) = length W.
Proof. apply length_map. Qed.

Lemma forward_ok D H K (p : params) (x : vec) :
  well_shaped D H K p → length x = D → forward p x = Ok (two_layer_spec p x).
Proof.
  intros [HW1 Hb1 HW2 Hb2] Hx.
  unfold forward, model. cbn [sequential layer_forward].
  rewrite (linear_ok H D) by done.
  rewrite (linear_ok K H); [done..|].
  rewrite length_map, length_vec_add, length_mat_vec.
  destruct HW1 as (_ & -> & _). lia.
Qed.

Lemma length_two_layer_spec D H K (p : params) (x : vec) :
  well_shaped D H K p → length (two_layer_spec p x) = K.
Proof.
  intros [HW1 Hb1 HW2 Hb2].
  unfold two_layer_spec. rewrite length_vec_add, length_mat_vec.
  destruct HW2 as (_ & -> & _). lia.
Qed.

(** C5: for every input of the input width [D] and parameters of the shapes
    the constructor gives them, the forward pass returns exactly
    [W2·relu(W1·x + b1) + b2], a vector of [K] logits; nothing else is
    applied to it. *)
Theorem forward_two_layer D H K (p : params) (x : vec) :
  well_shaped D H K p → length x = D →
  forward p x = Ok (two_layer_spec p x) ∧ length (two_layer_spec p x) = K.
Proof.
  intros Hp Hx. split; [by apply (forward_ok D H K) | by apply (length_two_layer_spec D H)].
Qed.

(** *** The logits are not bounded

    Adding [c] to the bias of the output layer adds [c] to the logits:
    nothing after the second linear layer squashes or normalises them. *)

Definition shift_output (c : vec) (p : params) : params :=
  {| W1 := W1 p; b1 := b1 p; W2 := W2 p; b2 := vec_add (b2 p) c |}.

Lemma Qplus_assoc_eq (a b c : Q) : (a + (b + c) = a + b + c)%Q.
Proof.
  unfold Qplus. simpl. f_equal; [|apply Pos.mul_assoc].
  rewrite !Pos2Z.inj_mul. ring.
Qed.

Lemma vec_add_assoc u v w : vec_add u (vec_add v w) = vec_add (vec_add u v) w.
Proof.
  unfold vec_add. revert v w.
  induction u as [|a u IH]; intros [|b v] [|c w]; simpl; try done.
  by rewrite IH, Qplus_assoc_eq.
Qed.

Lemma two_layer_shift p c x :
  two_layer_spec (shift_output c p) x = vec_add (two_layer_spec p x) c.
Proof. unfold two_layer_spec, shift_output. simpl. apply vec_add_assoc. Qed.

Lemma well_shaped_shift D H K p c :
  well_shaped D H K p → length c = K → well_shaped D H K (shift_output c p).
Proof.
  intros [HW1 Hb1 HW2 Hb2] Hc. split; simpl; try done.
  rewrite length_vec_add. lia.
Qed.

(** X25: the outputs of the classifier are logits, not probabilities: for
    every input of the right width, every class and every bound there are
    parameters of the same shapes with which that output exceeds the
    bound. *)
Lemma logits_unbounded D H K p x i (bound : Q) :
  well_shaped D H K p → length x = D → i < K →
  ∃ p' v, well_shaped D H K p' ∧ forward p' x = Ok (two_layer_spec p' x) ∧
          two_layer_spec p' x !! i = Some v ∧ (bound < v)%Q.
Proof.
  intros Hp Hx Hi.
  pose proof (length_two_layer_spec D H K p x Hp) as Hlen.
  destruct (lookup_lt_is_Some_2 (two_layer_spec p x) i) as [v Hv]; [lia|].
  set (c := replicate K (bound - v + 1)%Q).
  assert (well_shaped D H K (shift_output c p)) as Hp'
    by (apply well_shaped_shift; [done | apply length_replicate]).
  exists (shift_output c p), (v + (bound - v + 1))%Q. split_and!; [done | | |].
  - by apply (forward_ok D H K).
  - rewrite two_layer_shift. unfold vec_add. rewrite lookup_zip_with, Hv. simpl.
    unfold c. by rewrite lookup_replicate_2.
  - lra.
Qed.

(** *** Inputs of the wrong width *)

(** X9: the input layer checks the width: for parameters of the shapes of
    the constructor with at least one hidden unit, the forward pass of an
    input that has not [D] entries raises a [RuntimeError]. *)
Theorem forward_wrong_width D H K (p : params) (x : vec) :
  well_shaped D H K p → 1 ≤ H → length x ≠ D →
  forward p x = Raise RuntimeError.
Proof.
  intros [(Hin & _ & _) _ _ _] _ Hx.
  unfold forward, model. cbn [sequential layer_forward]. unfold linear.
  by rewrite (proj2 (Nat.eqb_neq (length x) (in_features (W1 p)))) by congruence.
Qed.

End Classifier.

(** ** Training and evaluation *)

Module Training.
Import Classifier.

(** The address of a tensor's storage. *)
Definition loc := positive.

Inductive tensor :=
  | Vector (v : vec)
  | Matrix (W : weight).

(** The [NewsGroupClassifier] object: the storage of each parameter of
    [self.model], under the index of its module in the [nn.Sequential]. *)
Record NewsGroupClassifier := {
  weight0 : loc; bias0 : loc;
  weight2 : loc; bias2 : loc
}.

(** An item of a [NewsGroupDataset]: an embedding and its label. *)
Abbreviation sample := (vec * Z)%type.
(** A batch as the [DataLoader] collates it: as many inputs as labels. *)
Abbreviation batch := (list sample).

Record DataLoader := {
  dataset : list sample;
  batch_size : nat;
  shuffle : bool
}.

(** Consecutive groups of [n] items; the last group may be smaller. *)
Fixpoint chunk {A} (n : nat) (l : list A) (acc : list A) : list (list A) :=
  match l with
  | [] => match acc with [] => [] | _ => [reverse acc] end
  | x :: l' =>
      if length (x :: acc) =? n then reverse (x :: acc) :: chunk n l' []
      else chunk n l' (x :: acc)
  end.

(** [torch.max(outputs, 1)]: the index of the first maximal entry of a row;
    a row without entries cannot be reduced. *)
Fixpoint argmax_from (best : Q) (best_i i : nat) (row : vec) : nat :=
  match row with
  | [] => best_i
  | x :: row' =>
      if Qle_bool x best then argmax_from best best_i (S i) row'
      else argmax_from x i (S i) row'
  end.

Definition argmax (row : vec) : result Z :=
  match row with
  | [] => Raise IndexError
  | x :: row' => Ok (Z.of_nat (argmax_from x 0 1 row'))
  end.

Fixpoint argmax_rows (outputs : mat) : result (list Z) :=
  match outputs with
  | [] => Ok []
  | row :: rows =>
      match argmax row, argmax_rows rows with
      | Ok i, Ok is_ => Ok (i :: is_)
      | Raise e, _ | _, Raise e => Raise e
      end
  end.

(** [(predicted == labels).sum().item()]. *)
Definition count_equal (predicted labels : list Z) : Z :=
  Z.of_nat (length (filter (λ pl, pl.1 = pl.2) (zip predicted labels))).

(** [a / b] on numbers. *)
Definition divide (a b : Q) : result Q :=
  if Qeq_bool b 0 then Raise ZeroDivisionError else Ok (a / b)%Q.

(** The keys of [model.state_dict()]. *)
Definition state_dict_keys (m : NewsGroupClassifier) : list (string * loc) :=
  [("model.0.weight", weight0 m); ("model.0.bias", bias0 m);
   ("model.2.weight", weight2 m); ("model.2.bias", bias2 m)]%string.

(** The class that the parameters [p] give an input: the index of its
    largest logit. *)
Definition predict_label (p : params) (x : vec) : result Z :=
  match forward p x with
  | Ok y => argmax y
  | Raise e => Raise e
  end.

#[export] Instance exn_eq_dec : EqDecision exn.
Proof. solve_decision. Defined.

#[export] Instance result_eq_dec `{EqDecision A} : EqDecision (result A).
Proof. solve_decision. Defined.

(** The samples of [data] that [p] classifies as their label says. *)
Definition correctly_classified (p : params) (data : list sample) : list sample :=
  filter (λ s, predict_label p s.1 = Ok s.2) data.

Lemma chunk_concat {A} n (l acc : list A) : concat (chunk n l acc) = reverse acc ++ l.
Proof.
  revert acc. induction l as [|x l IH]; intros acc.
  - destruct acc; simpl; by rewrite ?app_nil_r.
  - cbn [chunk]. destruct (length (x :: acc) =? n); cbn [concat]; rewrite IH.
    + rewrite reverse_nil. simpl. by rewrite reverse_cons, <- app_assoc.
    + by rewrite reverse_cons, <- app_assoc.
Qed.

Lemma count_equal_correct p (b : batch) outputs predicted :
  forward_batch p b.*1 = Ok outputs → argmax_rows outputs = Ok predicted →
  count_equal predicted b.*2 = Z.of_nat (length (correctly_classified p b)).
Proof.
  unfold count_equal, correctly_classified. intros Hf Ha. f_equal.
  revert outputs predicted Hf Ha.
  induction b as [|[x y] b IH]; intros outputs predicted.
  - intros [= <-] [= <-]. reflexivity.
  - rewrite !fmap_cons. cbn [forward_batch fst snd].
    destruct (forward p x) as [row|e] eqn:Hrow; [|intros [=]].
    destruct (forward_batch p b.*1) as [rows|e] eqn:Hrows; [|intros [=]].
    intros [= <-]. cbn [argmax_rows].
    destruct (argmax row) as [i|e] eqn:Hi; [|by destruct (argmax_rows rows)].
    destruct (argmax_rows rows) as [is_|e] eqn:His; [|intros [=]].
    intros [= <-]. specialize (IH rows is_ eq_refl His).
    assert (predict_label p x = Ok i) as Hp by (unfold predict_label; by rewrite Hrow).
    cbn [zip zip_with]. destruct (decide (i = y)) as [->|Hne].
    + rewrite (filter_cons_True (λ pl : Z * Z, pl.1 = pl.2)) by done.
      rewrite (filter_cons_True (λ s : sample, predict_label p s.1 = Ok s.2)) by done.
      simpl. by rewrite <- IH.
    + rewrite (filter_cons_False (λ pl : Z * Z, pl.1 = pl.2)) by done.
      rewrite (filter_cons_False (λ s : sample, predict_label p s.1 = Ok s.2))
        by (simpl; congruence).
      done.
Qed.

(** *** Small checks *)

Example chunk_five : chunk 2 [1; 2; 3; 4; 5] [] = [[1; 2]; [3; 4]; [5]].
Proof. reflexivity. Qed.

(** Of several maximal entries the first is reported. *)
Example argmax_tie : argmax [1; 3; 3; 2]%Q = Ok 1%Z.
Proof. reflexivity. Qed.

Example count_equal_two : count_equal [0; 1; 2]%Z [0; 2; 2]%Z = 2%Z.
Proof. reflexivity. Qed.

Section Run.

(** The state of the Adam optimizer (step count and moment estimates). *)
Context {optimizer : Type}.
(** The loss function, [loss.backward()] (the gradient of the loss of a
    batch with respect to each parameter) and [optimizer.step()]. *)
Variable criterion : mat → list Z → Q.
Variable backward : params → batch → params.
Variable adam_step : optimizer → params → params → optimizer * params.

(** What the interpreter holds between two statements. *)
Record world := {
  heap : gmap loc tensor;
  training : bool;
  adam : optimizer;
  torch_rng : Random.generator
}.

(** Statements: they may raise, and they leave a state behind either way. *)
Definition M (A : Type) : Type := world → result A * world.

#[export] Instance M_ret : MRet M := λ A a w, (Ok a, w).
#[export] Instance M_bind : MBind M := λ A B f c w,
  match c w with
  | (Ok a, w') => f a w'
  | (Raise e, w') => (Raise e, w')
  end.

Definition lift {A} (r : result A) : M A := λ w, (r, w).

(** [model.train()] and [model.eval()] set the mode flag. *)
Definition set_training (b : bool) : M unit := λ w,
  (Ok (), {| heap := heap w; training := b; adam := adam w;
             torch_rng := torch_rng w |}).

(** The current values of the parameters. *)
Definition read_params (m : NewsGroupClassifier) : M params := λ w,
  match heap w !! weight0 m, heap w !! bias0 m,
        heap w !! weight2 m, heap w !! bias2 m with
  | Some (Matrix W1), Some (Vector b1), Some (Matrix W2), Some (Vector b2) =>
      (Ok {| W1 := W1; b1 := b1; W2 := W2; b2 := b2 |}, w)
  | _, _, _, _ => (Raise RuntimeError, w)
  end.

(** The optimizer writes the new values into the parameters' own
    storage. *)
Definition write_heap (m : NewsGroupClassifier) (p : params)
    (h : gmap loc tensor) : gmap loc tensor :=
  <[bias2 m := Vector (b2 p)]>
    (<[weight2 m := Matrix (W2 p)]>
       (<[bias0 m := Vector (b1 p)]> (<[weight0 m := Matrix (W1 p)]> h))).

Definition optimizer_step (m : NewsGroupClassifier) (grads : params) : M unit := λ w,
  match read_params m w with
  | (Ok p, _) =>
      let (o', p') := adam_step (adam w) p grads in
      (Ok (), {| heap := write_heap m p' (heap w); training := training w;
                 adam := o'; torch_rng := torch_rng w |})
  | (Raise e, _) => (Raise e, w)
  end.

(** [model(inputs)]. *)
Definition call (m : NewsGroupClassifier) (inputs : mat) : M mat :=
  p ← read_params m; lift (forward_batch p inputs).

(** One pass over a [DataLoader]: the batches, in a fresh random order
    of the items when [shuffle] is set. *)
Definition iterate (loader : DataLoader) : M (list batch) := λ w,
  if shuffle loader then
    let (items, g) := Random.draw (length (dataset loader)) (dataset loader)
                                   (torch_rng w) in
    (Ok (chunk (batch_size loader) items []),
     {| heap := heap w; training := training w; adam := adam w; torch_rng := g |})
  else (Ok (chunk (batch_size loader) (dataset loader) []), w).

(** The running totals [(total_loss, correct, total)]. *)
Definition totals : Type := Q * Z * Z.

Definition track (t : totals) (loss : Q) (outputs : mat) (labels : list Z) : M totals :=
  predicted ← lift (argmax_rows outputs);
  mret ((t.1.1 + loss)%Q, (t.1.2 + count_equal predicted labels)%Z,
        (t.2 + Z.of_nat (length labels))%Z).

Definition train_batch (m : NewsGroupClassifier) (t : totals) (b : batch) : M totals :=
  let inputs := b.*1 in
  let labels := b.*2 in
  outputs ← call m inputs;
  let loss := criterion outputs labels in
  p ← read_params m;
  optimizer_step m (backward p b);;
  track t loss outputs labels.

Definition eval_batch (m : NewsGroupClassifier) (t : totals) (b : batch) : M totals :=
  let inputs := b.*1 in
  let labels := b.*2 in
  outputs ← call m inputs;
  let loss := criterion outputs labels in
  track t loss outputs labels.

Fixpoint for_batches (body : totals → batch → M totals) (t : totals)
    (batches : list batch) : M totals :=
  match batches with
  | [] => mret t
  | b :: batches' => t' ← body t b; for_batches body t' batches'
  end.

(** [return total_loss / len(loader), correct / total]. *)
Definition averages (t : totals) (batches : list batch) : M (Q * Q) :=
  avg_loss ← lift (divide t.1.1 (inject_Z (Z.of_nat (length batches))));
  acc ← lift (divide (inject_Z t.1.2) (inject_Z t.2));
  mret (avg_loss, acc).

Definition train_epoch (m : NewsGroupClassifier) (train_loader : DataLoader) : M (Q * Q) :=
  set_training true;;
  batches ← iterate train_loader;
  t ← for_batches (train_batch m) (0%Q, 0%Z, 0%Z) batches;
  averages t batches.

Definition evaluate (m : NewsGroupClassifier) (test_loader : DataLoader) : M (Q * Q) :=
  set_training false;;
  batches ← iterate test_loader;
  t ← for_batches (eval_batch m) (0%Q, 0%Z, 0%Z) batches;
  averages t batches.

(** *** The training cell *)

(** [model.state_dict()]: a dictionary from parameter names to tensors
    that share the storage of the parameters (no copy is made). *)
Definition state_dict (m : NewsGroupClassifier) : gmap string loc :=
  list_to_map (state_dict_keys m).

(** The values that the tensors of a state dictionary hold in a heap. *)
Definition tensors_of (sd : gmap string loc) (h : gmap loc tensor) : gmap string tensor :=
  omap (λ l, h !! l) sd.

Definition NUM_EPOCHS : nat := 20.
Definition PATIENCE : Z := 5.

(** The variables of the cell; [best_model] and [patience] are not bound
    before the loop assigns them. *)
Record globals := {
  best_val_acc : Q;
  best_model : option (gmap string loc);
  patience : option Z
}.

Definition initial_globals : globals :=
  {| best_val_acc := 0; best_model := None; patience := None |}.

Definition Qgt_bool (a b : Q) : bool := negb (Qle_bool a b).

(** How the body of the loop leaves an iteration. *)
Inductive flow :=
  | Continue (g : globals)
  | Break (g : globals)
  | Throw (e : exn).

(** The [if val_acc > best_val_acc: ... else: ...] statement. *)
Definition early_stopping (m : NewsGroupClassifier) (g : globals) (val_acc : Q) : flow :=
  if Qgt_bool val_acc (best_val_acc g) then
    Continue {| best_val_acc := val_acc;
                best_model := Some (state_dict m);
                patience := Some 0%Z |}
  else
    match patience g with
    | None => Throw NameError
    | Some n =>
        let g' := {| best_val_acc := best_val_acc g;
                     best_model := best_model g;
                     patience := Some (n + 1)%Z |} in
        if (n + 1 >? PATIENCE)%Z then Break g' else Continue g'
    end.

(** How the loop ends. *)
Inductive exit :=
  | Completed
  | EarlyStop
  | Raised (e : exn).

(** The outcome of the cell: how it ended, its variables, the state it
    leaves, and two records of the run: the number of iterations of the
    loop that were begun and the validation accuracy of every epoch that
    was evaluated (oldest first). *)
Record outcome := {
  ended : exit;
  vars : globals;
  final : world;
  iterations : nat;
  val_accs : list Q
}.

(** The first two statements of the body: train for one epoch, then
    evaluate on the validation data. *)
Definition train_and_validate (m : NewsGroupClassifier)
    (train_loader val_loader : DataLoader) : M (Q * Q) :=
  train_epoch m train_loader;; evaluate m val_loader.

(** [for epoch in range(NUM_EPOCHS): ...]. *)
Fixpoint for_epochs (m : NewsGroupClassifier) (train_loader val_loader : DataLoader)
    (epochs : list nat) (g : globals) (n : nat) (log : list Q) (w : world) : outcome :=
  match epochs with
  | [] => {| ended := Completed; vars := g; final := w;
             iterations := n; val_accs := log |}
  | _ :: epochs' =>
      match train_and_validate m train_loader val_loader w with
      | (Raise e, w') =>
          {| ended := Raised e; vars := g; final := w';
             iterations := S n; val_accs := log |}
      | (Ok (_, val_acc), w') =>
          let log' := log ++ [val_acc] in
          match early_stopping m g val_acc with
          | Continue g' =>
              for_epochs m train_loader val_loader epochs' g' (S n) log' w'
          | Break g' =>
              {| ended := EarlyStop; vars := g'; final := w';
                 iterations := S n; val_accs := log' |}
          | Throw e =>
              {| ended := Raised e; vars := g; final := w';
                 iterations := S n; val_accs := log' |}
          end
      end
  end.

(** The cell under [# train model], run where no variable of it is bound
    yet. *)
Definition train_model (m : NewsGroupClassifier) (train_loader val_loader : DataLoader)
    (w : world) : outcome :=
  for_epochs m train_loader val_loader (seq 0 NUM_EPOCHS) initial_globals 0 [] w.

(** *** Statements that write no tensor *)

(** [c] leaves every tensor and the optimizer as they are. *)
Definition readonly {A} (c : M A) : Prop :=
  ∀ w, heap (c w).2 = heap w ∧ adam (c w).2 = adam w.

Lemma readonly_ret {A} (a : A) : readonly (mret a).
Proof. by intros w. Qed.

Lemma readonly_lift {A} (r : result A) : readonly (lift r).
Proof. by intros w. Qed.

Lemma readonly_bind {A B} (c : M A) (f : A → M B) :
  readonly c → (∀ a, readonly (f a)) → readonly (c ≫= f).
Proof.
  intros Hc Hf w. unfold mbind, M_bind. specialize (Hc w).
  destruct (c w) as [[a|e] w']; simpl in *; [|done].
  destruct (Hf a w') as [-> ->]. done.
Qed.

Lemma readonly_set_training b : readonly (set_training b).
Proof. by intros w. Qed.

Lemma readonly_read_params m : readonly (read_params m).
Proof. intros w. unfold read_params. by repeat case_match. Qed.

Lemma readonly_iterate loader : readonly (iterate loader).
Proof.
  intros w. unfold iterate. destruct (shuffle loader); [|done].
  by destruct (Random.draw _ _ _).
Qed.

Lemma readonly_call m inputs : readonly (call m inputs).
Proof.
  apply readonly_bind; [apply readonly_read_params|].
  intros p. apply readonly_lift.
Qed.

Lemma readonly_track t loss outputs labels : readonly (track t loss outputs labels).
Proof.
  apply readonly_bind; [apply readonly_lift|]. intros ?. apply readonly_ret.
Qed.

Lemma readonly_eval_batch m t b : readonly (eval_batch m t b).
Proof.
  apply readonly_bind; [apply readonly_call|]. intros ?. apply readonly_track.
Qed.

Lemma readonly_for_batches body t batches :
  (∀ t b, readonly (body t b)) → readonly (for_batches body t batches).
Proof.
  intros Hbody. revert t. induction batches as [|b batches IH]; intros t; simpl.
  - apply readonly_ret.
  - apply readonly_bind; [apply Hbody | apply IH].
Qed.

Lemma readonly_averages t batches : readonly (averages t batches).
Proof.
  apply readonly_bind; [apply readonly_lift|]. intros ?.
  apply readonly_bind; [apply readonly_lift|]. intros ?. apply readonly_ret.
Qed.

Lemma readonly_evaluate m test_loader : readonly (evaluate m test_loader).
Proof.
  apply readonly_bind; [apply readonly_set_training|]. intros _.
  apply readonly_bind; [apply readonly_iterate|]. intros batches.
  apply readonly_bind; [|intros t; apply readonly_averages].
  apply readonly_for_batches. intros t b. apply readonly_eval_batch.
Qed.

(** *** The forward pass reads the parameters and nothing else *)

Lemma state_dict_lookup m :
  state_dict m !! "model.0.weight"%string = Some (weight0 m) ∧
  state_dict m !! "model.0.bias"%string = Some (bias0 m) ∧
  state_dict m !! "model.2.weight"%string = Some (weight2 m) ∧
  state_dict m !! "model.2.bias"%string = Some (bias2 m).
Proof. unfold state_dict, state_dict_keys. simpl. by simplify_map_eq. Qed.

Lemma tensors_of_lookup sd h k l :
  sd !! k = Some l → tensors_of sd h !! k = h !! l.
Proof. intros H. unfold tensors_of. by rewrite lookup_omap, H. Qed.

Lemma read_params_snapshot m w1 w2 :
  tensors_of (state_dict m) (heap w1) = tensors_of (state_dict m) (heap w2) →
  (read_params m w1).1 = (read_params m w2).1.
Proof.
  intros Heq. destruct (state_dict_lookup m) as (H1 & H2 & H3 & H4).
  assert (∀ k l, state_dict m !! k = Some l → heap w1 !! l = heap w2 !! l) as Hl.
  { intros k l Hk. by rewrite <- !(tensors_of_lookup _ _ k l Hk), Heq. }
  unfold read_params.
  rewrite (Hl _ _ H1), (Hl _ _ H2), (Hl _ _ H3), (Hl _ _ H4).
  by repeat case_match.
Qed.

Lemma call_snapshot m inputs w1 w2 :
  tensors_of (state_dict m) (heap w1) = tensors_of (state_dict m) (heap w2) →
  (call m inputs w1).1 = (call m inputs w2).1.
Proof.
  intros Heq%read_params_snapshot. unfold call, mbind, M_bind.
  destruct (read_params m w1) as [[p1|e1] w1'], (read_params m w2) as [[p2|e2] w2'];
    simpl in *; congruence.
Qed.

(** *** The early-stopping statement *)

Lemma early_stopping_improved m g val_acc :
  Qgt_bool val_acc (best_val_acc g) = true →
  early_stopping m g val_acc =
  Continue {| best_val_acc := val_acc; best_model := Some (state_dict m);
              patience := Some 0%Z |}.
Proof. intros H. unfold early_stopping. by rewrite H. Qed.

Lemma early_stopping_counts m g val_acc n :
  Qgt_bool val_acc (best_val_acc g) = false → patience g = Some n →
  let g' := {| best_val_acc := best_val_acc g; best_model := best_model g;
               patience := Some (n + 1)%Z |} in
  early_stopping m g val_acc =
  if (n + 1 >? PATIENCE)%Z then Break g' else Continue g'.
Proof. intros H Hn. unfold early_stopping. by rewrite H, Hn. Qed.

Lemma early_stopping_unbound m g val_acc :
  Qgt_bool val_acc (best_val_acc g) = false → patience g = None →
  early_stopping m g val_acc = Throw NameError.
Proof. intros H Hn. unfold early_stopping. by rewrite H, Hn. Qed.

Lemma Qgt_bool_true a b : Qgt_bool a b = true ↔ (b < a)%Q.
Proof.
  unfold Qgt_bool. rewrite negb_true_iff, <- not_true_iff_false, Qle_bool_iff.
  split; [apply Qnot_le_lt | apply Qlt_not_le].
Qed.

Lemma Qgt_bool_false a b : Qgt_bool a b = false ↔ (a <= b)%Q.
Proof. unfold Qgt_bool. by rewrite negb_false_iff, Qle_bool_iff. Qed.

(** *** Invariants of the loop *)

Section Loop.
Variables (m : NewsGroupClassifier) (train_loader val_loader : DataLoader).

Abbreviation loop := (for_epochs m train_loader val_loader).

(** The loop begins at most one iteration per element of the range. *)
Lemma for_epochs_iterations epochs g n log w :
  iterations (loop epochs g n log w) ≤ n + length epochs.
Proof.
  revert g n log w. induction epochs as [|e epochs IH]; intros g n log w; simpl; [lia|].
  destruct (train_and_validate _ _ _ w) as [[[_ a]|err] w']; simpl; [|lia].
  destruct (early_stopping m g a); simpl; [|lia..].
  etrans; [apply IH|]. lia.
Qed.

(** It is left normally only when the range is used up. *)
Lemma for_epochs_completed epochs g n log w :
  ended (loop epochs g n log w) = Completed →
  iterations (loop epochs g n log w) = n + length epochs.
Proof.
  revert g n log w. induction epochs as [|e epochs IH]; intros g n log w; simpl; [lia|].
  destruct (train_and_validate _ _ _ w) as [[[_ a]|err] w']; simpl; [|done].
  destruct (early_stopping m g a); simpl; [|done..].
  intros H. rewrite IH by done. lia.
Qed.

(** One accuracy is recorded per iteration, except for an iteration in
    which training or evaluation raises. *)
Lemma for_epochs_val_accs epochs g n log w :
  length log ≤ n →
  length (val_accs (loop epochs g n log w)) ≤ iterations (loop epochs g n log w).
Proof.
  revert g n log w. induction epochs as [|e epochs IH]; intros g n log w Hlog; simpl; [lia|].
  destruct (train_and_validate _ _ _ w) as [[[_ a]|err] w']; simpl; [|lia].
  destruct (early_stopping m g a); simpl; rewrite ?length_app; simpl; try lia.
  apply IH. rewrite length_app. simpl. lia.
Qed.

(** A property of the variables and the record of accuracies that the
    early-stopping statement keeps holds when the loop is left. *)
Lemma for_epochs_invariant (I : globals → list Q → Prop) :
  (∀ g log a, I g log →
     match early_stopping m g a with
     | Continue g' | Break g' => I g' (log ++ [a])
     | Throw _ => I g (log ++ [a])
     end) →
  ∀ epochs g n log w, I g log →
    I (vars (loop epochs g n log w)) (val_accs (loop epochs g n log w)).
Proof.
  intros Hstep epochs.
  induction epochs as [|e epochs IH]; intros g n log w HI; simpl; [done|].
  destruct (train_and_validate _ _ _ w) as [[[_ a]|err] w']; simpl; [|done].
  specialize (Hstep g log a HI).
  destruct (early_stopping m g a); simpl; auto.
Qed.

(** [best_model], once bound, is the state dictionary of the model
    itself: the same tensors, not copies of them. *)
Lemma for_epochs_best_model epochs g n log w sd :
  (∀ sd, best_model g = Some sd → sd = state_dict m) →
  best_model (vars (loop epochs g n log w)) = Some sd → sd = state_dict m.
Proof.
  intros Hg. revert sd.
  apply (for_epochs_invariant (λ g _, ∀ sd, best_model g = Some sd → sd = state_dict m));
    [|done].
  clear. intros g log a HI. unfold early_stopping.
  destruct (Qgt_bool _ _); simpl; [by intros ? [= <-]|].
  destruct (patience g); [|done]. by destruct (_ >? _)%Z.
Qed.

(** [best_val_acc] is at least every recorded accuracy. *)
Lemma for_epochs_best_val_acc epochs g n log w a :
  (∀ a, a ∈ log → (a <= best_val_acc g)%Q) →
  a ∈ val_accs (loop epochs g n log w) →
  (a <= best_val_acc (vars (loop epochs g n log w)))%Q.
Proof.
  intros Hg. revert a.
  apply (for_epochs_invariant (λ g log, ∀ a, a ∈ log → (a <= best_val_acc g)%Q));
    [|done].
  clear. intros g log a HI. unfold early_stopping.
  destruct (Qgt_bool _ _) eqn:Hgt; simpl.
  - apply Qgt_bool_true in Hgt.
    intros b [Hb | ->%list_elem_of_singleton]%elem_of_app; [|apply Qle_refl].
    eapply Qle_trans; [by apply HI | by apply Qlt_le_weak].
  - apply Qgt_bool_false in Hgt.
    assert (∀ b, b ∈ log ++ [a] → (b <= best_val_acc g)%Q) as Hall.
    { intros b [Hb | ->%list_elem_of_singleton]%elem_of_app; auto. }
    destruct (patience g); [|done]. by destruct (_ >? _)%Z.
Qed.

(** The counter, once bound, stays between 0 and [PATIENCE] while the
    loop goes on; the loop is left through [break] exactly when the
    counter has become [PATIENCE + 1]. *)
Definition counter_in_range (g : globals) : Prop :=
  match patience g with
  | None => True
  | Some k => (0 ≤ k ≤ PATIENCE)%Z
  end.

Lemma for_epochs_counter epochs g n log w :
  counter_in_range g →
  match ended (loop epochs g n log w) with
  | EarlyStop => patience (vars (loop epochs g n log w)) = Some (PATIENCE + 1)%Z
  | _ => counter_in_range (vars (loop epochs g n log w))
  end.
Proof.
  revert g n log w. induction epochs as [|e epochs IH]; intros g n log w Hg; simpl; [done|].
  destruct (train_and_validate _ _ _ w) as [[[_ a]|err] w']; simpl; [|done].
  unfold early_stopping. destruct (Qgt_bool _ _); simpl.
  - apply IH. unfold counter_in_range, PATIENCE. simpl. lia.
  - unfold counter_in_range in Hg.
    destruct (patience g) as [k|] eqn:Hk; simpl; [|by unfold counter_in_range; rewrite Hk].
    destruct (k + 1 >? PATIENCE)%Z eqn:Hgt; simpl.
    + f_equal. unfold PATIENCE in *. lia.
    + apply IH. unfold counter_in_range, PATIENCE in *. simpl. lia.
Qed.

(** An epoch that does not improve on [best_val_acc] while [patience]
    is not bound yet stops the cell with a [NameError]. *)
Lemma for_epochs_unbound e epochs g n log w val_loss val_acc w' :
  train_and_validate m train_loader val_loader w = (Ok (val_loss, val_acc), w') →
  (val_acc <= best_val_acc g)%Q → patience g = None →
  loop (e :: epochs) g n log w =
  {| ended := Raised NameError; vars := g; final := w';
     iterations := S n; val_accs := log ++ [val_acc] |}.
Proof.
  intros Hrun Hle%Qgt_bool_false Hp. simpl. rewrite Hrun.
  by rewrite early_stopping_unbound.
Qed.

(** The record since the best epoch: every accuracy is at most
    [best_val_acc]; once the counter is bound, [best_val_acc] is in the
    record, above everything before it, and the counter is the number of
    epochs after it. *)
Definition since_best (g : globals) (log : list Q) : Prop :=
  (∀ a, a ∈ log → (a <= best_val_acc g)%Q) ∧
  match patience g with
  | None => True
  | Some k =>
      ∃ pre tail, log = pre ++ best_val_acc g :: tail ∧
        Z.of_nat (length tail) = k ∧
        (∀ a, a ∈ pre → (a < best_val_acc g)%Q)
  end.

Lemma early_stopping_since_best g log a :
  since_best g log →
  match early_stopping m g a with
  | Continue g' | Break g' => since_best g' (log ++ [a])
  | Throw _ => since_best g (log ++ [a])
  end.
Proof.
  intros [Hle Hk]. unfold early_stopping.
  destruct (Qgt_bool _ _) eqn:Hgt.
  - apply Qgt_bool_true in Hgt. split; simpl.
    + intros b [Hb | ->%list_elem_of_singleton]%elem_of_app; [|apply Qle_refl].
      eapply Qle_trans; [by apply Hle | by apply Qlt_le_weak].
    + exists log, []. split_and!; [done..|].
      intros b Hb. eapply Qle_lt_trans; [by apply Hle | done].
  - apply Qgt_bool_false in Hgt.
    assert (∀ b, b ∈ log ++ [a] → (b <= best_val_acc g)%Q) as Hall.
    { intros b [Hb | ->%list_elem_of_singleton]%elem_of_app; auto. }
    destruct (patience g) as [k|] eqn:Hp.
    + destruct Hk as (pre & tail & -> & Hlen & Hpre).
      assert (since_best {| best_val_acc := best_val_acc g; best_model := best_model g;
                            patience := Some (k + 1)%Z |}
                ((pre ++ best_val_acc g :: tail) ++ [a])) as Hnext.
      { split; [done|]. simpl. exists pre, (tail ++ [a]). split_and!; [|  |done].
        - by rewrite <- app_assoc.
        - rewrite length_app. simpl. lia. }
      by destruct (_ >? _)%Z.
    + split; [done|]. by rewrite Hp.
Qed.

(** After an epoch that went through the early-stopping statement
    without an error, the three variables of the cell are bound. *)
Definition all_bound (g : globals) : Prop :=
  is_Some (patience g) ∧ best_model g = Some (state_dict m) ∧ (0 < best_val_acc g)%Q.

Lemma early_stopping_all_bound g a :
  all_bound g ∨ g = initial_globals →
  match early_stopping m g a with
  | Continue g' | Break g' => all_bound g'
  | Throw _ => g = initial_globals
  end.
Proof.
  unfold early_stopping. intros [(Hp & Hm & Hb) | ->].
  - destruct (Qgt_bool _ _) eqn:Hgt.
    + apply Qgt_bool_true in Hgt. split_and!; simpl; [done..|].
      by eapply Qlt_trans.
    + destruct Hp as [k Hk]. rewrite Hk.
      by destruct (_ >? _)%Z; (split_and!; simpl).
  - destruct (Qgt_bool _ _) eqn:Hgt; [|done].
    apply Qgt_bool_true in Hgt. by split_and!.
Qed.

Lemma for_epochs_all_bound epochs g n log w :
  all_bound g → all_bound (vars (loop epochs g n log w)).
Proof.
  revert g n log w. induction epochs as [|e epochs IH]; intros g n log w Hg; simpl; [done|].
  destruct (train_and_validate _ _ _ w) as [[[_ a]|err] w']; simpl; [|done].
  pose proof (early_stopping_all_bound g a (or_introl Hg)) as Hstep.
  destruct (early_stopping m g a); simpl; auto.
Qed.

End Loop.

(** *** Empty loaders *)

Lemma iterate_empty loader w :
  dataset loader = [] → (iterate loader w).1 = Ok [].
Proof.
  intros Hd. unfold iterate. rewrite Hd. by destruct (shuffle loader).
Qed.

Lemma averages_empty t w : averages t [] w = (Raise ZeroDivisionError, w).
Proof. reflexivity. Qed.

Lemma bind_Ok {A B} (c : M A) (f : A → M B) w a w' :
  c w = (Ok a, w') → (c ≫= f) w = f a w'.
Proof. intros H. unfold mbind, M_bind. by rewrite H. Qed.

Lemma bind_Raise {A B} (c : M A) (f : A → M B) w e w' :
  c w = (Raise e, w') → (c ≫= f) w = (Raise e, w').
Proof. intros H. unfold mbind, M_bind. by rewrite H. Qed.

Lemma epoch_empty body (mode : bool) loader w :
  dataset loader = [] →
  ((set_training mode;; batches ← iterate loader;
    t ← for_batches body (0%Q, 0%Z, 0%Z) batches; averages t batches) w).1
  = Raise ZeroDivisionError.
Proof.
  intros Hd. unfold mbind at 1, M_bind at 1. simpl.
  pose proof (iterate_empty loader (set_training mode w).2 Hd) as Hi.
  simpl in Hi. unfold mbind at 1, M_bind at 1.
  destruct (iterate loader _) as [[batches|e] w1]; simpl in Hi; [|done].
  injection Hi as ->. reflexivity.
Qed.

(** X10: a loader without samples divides by zero: [evaluate] and
    [train_epoch] raise a [ZeroDivisionError] at [total_loss / len(loader)],
    and [train_epoch] has not touched a tensor by then. *)
Theorem empty_loader_raises m loader w :
  dataset loader = [] →
  (evaluate m loader w).1 = Raise ZeroDivisionError ∧
  (train_epoch m loader w).1 = Raise ZeroDivisionError ∧
  heap (train_epoch m loader w).2 = heap w.
Proof.
  intros Hd. split_and!.
  - by apply epoch_empty.
  - by apply epoch_empty.
  - unfold train_epoch. unfold mbind at 1, M_bind at 1. simpl.
    unfold mbind at 1, M_bind at 1.
    pose proof (iterate_empty loader (set_training true w).2 Hd) as Hi.
    destruct (readonly_iterate loader (set_training true w).2) as [Hh _].
    simpl in Hi, Hh. destruct (iterate loader _) as [[batches|e] w1]; simpl in *; [|done].
    by injection Hi as ->.
Qed.

(** *** The accuracy that an epoch reports *)

Lemma bind_Ok_inv {A B} (c : M A) (f : A → M B) w b w' :
  (c ≫= f) w = (Ok b, w') → ∃ a w1, c w = (Ok a, w1) ∧ f a w1 = (Ok b, w').
Proof.
  unfold mbind, M_bind. destruct (c w) as [[a|e] w1]; [|done]. eauto.
Qed.

Lemma count_equal_bounds predicted labels :
  (0 ≤ count_equal predicted labels ≤ Z.of_nat (length labels))%Z.
Proof.
  unfold count_equal. split; [lia|].
  pose proof (length_filter (λ pl : Z * Z, pl.1 = pl.2) (zip predicted labels)) as Hf.
  pose proof (length_zip_with pair predicted labels) as Hz. unfold zip in *. lia.
Qed.

(** Not more correct predictions than predictions. *)
Definition totals_ok (t : totals) : Prop := (0 ≤ t.1.2 ≤ t.2)%Z.

Lemma track_totals t loss outputs labels w t' w' :
  track t loss outputs labels w = (Ok t', w') → totals_ok t → totals_ok t'.
Proof.
  intros (predicted & w1 & _ & Hret)%bind_Ok_inv Ht.
  injection Hret as <- _. unfold totals_ok in *. simpl.
  pose proof (count_equal_bounds predicted labels). lia.
Qed.

Lemma eval_batch_totals m t b w t' w' :
  eval_batch m t b w = (Ok t', w') → totals_ok t → totals_ok t'.
Proof. intros (outputs & w1 & _ & Ht)%bind_Ok_inv. by eapply track_totals. Qed.

Lemma train_batch_totals m t b w t' w' :
  train_batch m t b w = (Ok t', w') → totals_ok t → totals_ok t'.
Proof.
  intros (outputs & w1 & _ & (p & w2 & _ & (u & w3 & _ & Ht)%bind_Ok_inv)%bind_Ok_inv)%bind_Ok_inv.
  by eapply track_totals.
Qed.

Lemma for_batches_totals body t batches w t' w' :
  (∀ t b w t' w', body t b w = (Ok t', w') → totals_ok t → totals_ok t') →
  for_batches body t batches w = (Ok t', w') → totals_ok t → totals_ok t'.
Proof.
  intros Hbody. revert t w. induction batches as [|b batches IH]; intros t w; simpl.
  - by intros [= <- _].
  - intros (t1 & w1 & Hb & Hrest)%bind_Ok_inv Ht. eauto.
Qed.

Lemma averages_bounds t batches w loss acc w' :
  averages t batches w = (Ok (loss, acc), w') → totals_ok t → (0 <= acc <= 1)%Q.
Proof.
  intros (l & w1 & _ & (a & w2 & Hacc & Hret)%bind_Ok_inv)%bind_Ok_inv [Hc Ht].
  injection Hret as _ -> _. unfold lift, divide in Hacc.
  destruct (Qeq_bool (inject_Z t.2) 0) eqn:Hz; [done|]. injection Hacc as <- _.
  apply Qeq_bool_neq in Hz.
  assert (0 < t.2)%Z as Hpos.
  { destruct (decide (t.2 = 0%Z)) as [H0|]; [|lia]. destruct Hz. by rewrite H0. }
  assert (0 < inject_Z t.2)%Q as HposQ by (by rewrite <- (Zlt_Qlt 0)).
  split.
  - apply Qle_shift_div_l; [done|]. rewrite Qmult_0_l. by rewrite <- (Zle_Qle 0).
  - apply Qle_shift_div_r; [done|]. rewrite Qmult_1_l. by rewrite <- Zle_Qle.
Qed.

(** X11: the accuracy that [evaluate] or [train_epoch] returns lies
    between 0 and 1, whatever the data, the loss and the optimizer are. *)
Theorem accuracy_bounds m loader w loss acc w' :
  evaluate m loader w = (Ok (loss, acc), w') ∨
  train_epoch m loader w = (Ok (loss, acc), w') →
  (0 <= acc <= 1)%Q.
Proof.
  assert (totals_ok (0%Q, 0%Z, 0%Z)) as H0 by (unfold totals_ok; simpl; lia).
  intros [(u & w1 & _ & (batches & w2 & _ & (t & w3 & Ht & Ha)%bind_Ok_inv)%bind_Ok_inv)%bind_Ok_inv
         |(u & w1 & _ & (batches & w2 & _ & (t & w3 & Ht & Ha)%bind_Ok_inv)%bind_Ok_inv)%bind_Ok_inv].
  - eapply averages_bounds; [done|].
    eapply for_batches_totals; [apply eval_batch_totals | done | done].
  - eapply averages_bounds; [done|].
    eapply for_batches_totals; [apply train_batch_totals | done | done].
Qed.

(** *** What [evaluate] counts *)

Lemma read_params_state m w : (read_params m w).2 = w.
Proof. unfold read_params. by repeat case_match. Qed.

Lemma read_params_heap m w1 w2 :
  heap w1 = heap w2 → (read_params m w1).1 = (read_params m w2).1.
Proof. intros Hh. unfold read_params. rewrite Hh. by repeat case_match. Qed.

Lemma eval_batch_Ok m t b w t' w' p :
  (read_params m w).1 = Ok p → eval_batch m t b w = (Ok t', w') →
  w' = w ∧
  t'.1.2 = (t.1.2 + Z.of_nat (length (correctly_classified p b)))%Z ∧
  t'.2 = (t.2 + Z.of_nat (length b))%Z.
Proof.
  intros Hp (outputs & w1 & Hcall & Htrack)%bind_Ok_inv.
  apply bind_Ok_inv in Hcall as (p' & w2 & Hread & Hfwd).
  pose proof (read_params_state m w) as Hw. rewrite Hread in Hp, Hw. simpl in Hp, Hw.
  injection Hp as ->. subst w2. unfold lift in Hfwd. injection Hfwd as Hfwd <-.
  apply bind_Ok_inv in Htrack as (predicted & w3 & Hmax & Hret).
  unfold lift in Hmax. injection Hmax as Hmax <-. injection Hret as <- <-.
  simpl. rewrite (count_equal_correct p b outputs predicted Hfwd Hmax), length_fmap.
  done.
Qed.

Lemma eval_batch_Raise m t b w e :
  (read_params m w).1 = Raise e → (eval_batch m t b w).1 = Raise e.
Proof.
  intros Hp. unfold eval_batch, call, mbind, M_bind.
  destruct (read_params m w) as [[p|e'] w1]; simpl in *; congruence.
Qed.

Lemma for_batches_eval m t batches w t' w' p :
  (read_params m w).1 = Ok p →
  for_batches (eval_batch m) t batches w = (Ok t', w') →
  w' = w ∧
  t'.1.2 = (t.1.2 + Z.of_nat (length (correctly_classified p (concat batches))))%Z ∧
  t'.2 = (t.2 + Z.of_nat (length (concat batches)))%Z.
Proof.
  intros Hp. revert t. induction batches as [|b batches IH]; intros t; simpl.
  - intros [= <- <-]. split_and!; [done|lia..].
  - intros (t1 & w1 & Hb & Hrest)%bind_Ok_inv.
    apply (eval_batch_Ok m t b w t1 w1 p Hp) in Hb as (-> & Hc & Ht).
    apply IH in Hrest as (-> & Hc' & Ht'). split; [done|].
    unfold correctly_classified in *. rewrite filter_app, !length_app. lia.
Qed.

Lemma iterate_Permutation loader w :
  ∃ batches, (iterate loader w).1 = Ok batches ∧ concat batches ≡ₚ dataset loader.
Proof.
  unfold iterate. destruct (shuffle loader).
  - pose proof (Random.draw_length (length (dataset loader)) (dataset loader)
                  (torch_rng w) (le_n _)) as Hlen.
    pose proof (Random.draw_submseteq (length (dataset loader)) (dataset loader)
                  (torch_rng w)) as Hsub.
    destruct (Random.draw _ _ _) as [items g]. simpl in *.
    eexists. split; [done|]. rewrite chunk_concat. simpl.
    apply submseteq_length_Permutation; [done|lia].
  - eexists. split; [done|]. by rewrite chunk_concat.
Qed.

(** X12: the accuracy that [evaluate] returns is the number of samples of
    the dataset whose largest logit is at their label, over the number of
    samples: it does not depend on the batch size or on the order in which
    the loader yields the samples. *)
Theorem evaluate_accuracy m loader w loss acc w' :
  evaluate m loader w = (Ok (loss, acc), w') →
  ∃ p, (read_params m w).1 = Ok p ∧
       acc = (inject_Z (Z.of_nat (length (correctly_classified p (dataset loader))))
              / inject_Z (Z.of_nat (length (dataset loader))))%Q.
Proof.
  intros (u & w1 & Hset & (batches & w2 & Hit & (t & w3 & Ht & Ha)%bind_Ok_inv)%bind_Ok_inv)%bind_Ok_inv.
  assert (heap w1 = heap w) as Hw1 by (by injection Hset as _ <-).
  destruct (iterate_Permutation loader w1) as (batches' & Hb & Hperm).
  destruct (readonly_iterate loader w1) as [Hheap _].
  rewrite Hit in Hb, Hheap. simpl in Hb, Hheap. injection Hb as <-.
  assert ((read_params m w2).1 = (read_params m w).1) as Hread
    by (apply read_params_heap; congruence).
  destruct (read_params m w).1 as [p|e] eqn:Hp.
  - exists p. split; [done|].
    apply (for_batches_eval m _ batches w2 t w3 p Hread) in Ht as (-> & Hc & Htot).
    apply bind_Ok_inv in Ha as (l & w4 & _ & (a & w5 & Hacc & Hret)%bind_Ok_inv).
    injection Hret as _ -> _. unfold lift, divide in Hacc.
    destruct (Qeq_bool _ _); [done|]. injection Hacc as <- _.
    rewrite Hc, Htot. simpl. unfold correctly_classified. by rewrite Hperm.
  - destruct batches as [|b batches].
    + by rewrite averages_empty in Ha.
    + simpl in Ht. apply bind_Ok_inv in Ht as (t1 & w4 & Hb & _).
      pose proof (eval_batch_Raise m (0%Q, 0%Z, 0%Z) b w2 e Hread) as Hr.
      by rewrite Hb in Hr.
Qed.

End Run.

(** C6: for every model, data loader and loss criterion, and from every
    state, [evaluate] leaves the heap of tensors as it found it: each
    parameter of both linear layers holds after the call the value it held
    before, and the optimizer is not touched. *)
Theorem evaluate_leaves_parameters {optimizer} (criterion : mat → list Z → Q)
    (m : NewsGroupClassifier) (test_loader : DataLoader) (w : world (optimizer:=optimizer)) :
  let w' := (evaluate criterion m test_loader w).2 in
  heap w' = heap w ∧
  tensors_of (state_dict m) (heap w') = tensors_of (state_dict m) (heap w) ∧
  (read_params m w').1 = (read_params m w).1 ∧
  adam w' = adam w.
Proof.
  destruct (readonly_evaluate criterion m test_loader w) as [Hh Ha].
  simpl. split_and!; try done.
  - by rewrite Hh.
  - apply read_params_snapshot. by rewrite Hh.
Qed.

(** C8: for every model and input embedding, and for any two states in
    which the parameters of the model hold the same values (whatever the
    mode flag, the optimizer or the random generator are), the forward pass
    returns the same logits, or raises the same error. *)
Theorem forward_deterministic {optimizer} (m : NewsGroupClassifier) (x : vec)
    (w1 w2 : world (optimizer:=optimizer)) :
  tensors_of (state_dict m) (heap w1) = tensors_of (state_dict m) (heap w2) →
  (call m [x] w1).1 = (call m [x] w2).1.
Proof. apply call_snapshot. Qed.

(** Two forward passes in a row, and two forward passes with an evaluation
    in between, agree. *)
Corollary forward_twice {optimizer} (m : NewsGroupClassifier) (x : vec)
    (w : world (optimizer:=optimizer)) :
  (call m [x] (call m [x] w).2).1 = (call m [x] w).1.
Proof.
  apply call_snapshot. by destruct (readonly_call m [x] w) as [-> _].
Qed.

Corollary forward_after_evaluate {optimizer} criterion (m : NewsGroupClassifier)
    (loader : DataLoader) (x : vec) (w : world (optimizer:=optimizer)) :
  (call m [x] (evaluate criterion m loader w).2).1 = (call m [x] w).1.
Proof.
  apply call_snapshot. by destruct (readonly_evaluate criterion m loader w) as [-> _].
Qed.

(** *** The training cell as a whole *)

Section Cell.
Context {optimizer : Type}.
Variable criterion : mat → list Z → Q.
Variable backward : params → batch → params.
Variable adam_step : optimizer → params → params → optimizer * params.
Variables (m : NewsGroupClassifier) (train_loader val_loader : DataLoader).
Variable w : world (optimizer:=optimizer).

Abbreviation cell :=
  (train_model criterion backward adam_step m train_loader val_loader w).

(** X21: the loop never begins more than [NUM_EPOCHS] iterations, it
    records at most one validation accuracy per iteration that it began
    (so at most [NUM_EPOCHS] in all), and it completes normally only after
    exactly [NUM_EPOCHS] iterations. *)
Lemma train_model_bounded :
  iterations cell ≤ NUM_EPOCHS ∧ length (val_accs cell) ≤ iterations cell ∧
  (ended cell = Completed → iterations cell = NUM_EPOCHS).
Proof.
  unfold train_model.
  pose proof (for_epochs_iterations criterion backward adam_step m train_loader
                val_loader (seq 0 NUM_EPOCHS) initial_globals 0 [] w) as Hit.
  pose proof (for_epochs_val_accs criterion backward adam_step m train_loader
                val_loader (seq 0 NUM_EPOCHS) initial_globals 0 [] w (le_n 0)) as Hlog.
  rewrite length_seq in Hit. split_and!; [lia | done |].
  intros H%for_epochs_completed. by rewrite length_seq in H.
Qed.

(** It is left through [break] with the counter at [PATIENCE + 1]; in
    every other case a bound counter is at most [PATIENCE]. *)
Lemma train_model_counter :
  match ended cell with
  | EarlyStop => patience (vars cell) = Some (PATIENCE + 1)%Z
  | _ => counter_in_range (vars cell)
  end.
Proof. by apply for_epochs_counter. Qed.

(** X22: however the cell is left, [best_val_acc] is at least every
    validation accuracy that was recorded. *)
Lemma train_model_best_val_acc a :
  let run := train_model criterion backward adam_step m train_loader val_loader w in
  a ∈ val_accs run → (a <= best_val_acc (vars run))%Q.
Proof. apply for_epochs_best_val_acc. by intros ? ?%elem_of_nil. Qed.

(** X23: whenever [best_model] is bound when the cell is left, it is the
    state dictionary of the model itself, and what it holds is what the
    parameters of the model hold then: the values after the last training
    step. *)
Lemma best_model_is_live sd :
  best_model (vars cell) = Some sd →
  sd = state_dict m ∧
  tensors_of sd (heap (final cell)) = tensors_of (state_dict m) (heap (final cell)).
Proof.
  intros Hsd. eapply for_epochs_best_model in Hsd as ->; [done|]. by intros.
Qed.

(** X24: whenever training and validation of the first epoch return a
    validation accuracy that is not positive, the cell stops with a
    [NameError] at [patience += 1], after one iteration and with no
    variable changed. *)
Lemma train_model_unbound_patience val_loss val_acc w' :
  train_and_validate criterion backward adam_step m train_loader val_loader w
    = (Ok (val_loss, val_acc), w') →
  (val_acc <= 0)%Q →
  cell = {| ended := Raised NameError; vars := initial_globals; final := w';
            iterations := 1; val_accs := [val_acc] |}.
Proof.
  intros Hrun Hle. unfold train_model. change (seq 0 NUM_EPOCHS) with (0 :: seq 1 19).
  by erewrite for_epochs_unbound.
Qed.

(** X13: when the cell is left through [break], the record of validation
    accuracies is: epochs whose accuracy is below [best_val_acc], the
    epoch that reached [best_val_acc], and then exactly [PATIENCE + 1]
    epochs, none of which exceeded it. *)
Theorem early_stop_record :
  ended cell = EarlyStop →
  ∃ pre tail, val_accs cell = pre ++ best_val_acc (vars cell) :: tail ∧
    length tail = Z.to_nat (PATIENCE + 1) ∧
    (∀ a, a ∈ pre → (a < best_val_acc (vars cell))%Q) ∧
    (∀ a, a ∈ tail → (a <= best_val_acc (vars cell))%Q).
Proof.
  intros Hend.
  pose proof (for_epochs_counter criterion backward adam_step m train_loader val_loader
                (seq 0 NUM_EPOCHS) initial_globals 0 [] w I) as Hc.
  assert (since_best (vars cell) (val_accs cell)) as [Hle Hk].
  { apply (for_epochs_invariant criterion backward adam_step m train_loader val_loader
             since_best).
    - intros g log a. apply early_stopping_since_best.
    - split; [by intros ? ?%elem_of_nil | done]. }
  fold cell in Hc. rewrite Hend in Hc. rewrite Hc in Hk.
  destruct Hk as (pre & tail & Hlog & Hlen & Hpre).
  exists pre, tail. split_and!; [done | lia | done |].
  intros a Ha. apply Hle. rewrite Hlog. set_solver.
Qed.

(** X14: an iteration after the first is begun only with all three
    variables of the cell bound: [patience] to a number, [best_model] to
    the state dictionary of the model, and [best_val_acc] to a positive
    accuracy.  The unbound [patience] can stop the cell in its first
    epoch only. *)
Theorem later_epochs_bound :
  1 < iterations cell →
  is_Some (patience (vars cell)) ∧
  best_model (vars cell) = Some (state_dict m) ∧
  (0 < best_val_acc (vars cell))%Q.
Proof.
  unfold train_model. change (seq 0 NUM_EPOCHS) with (0 :: seq 1 19). simpl.
  destruct (train_and_validate _ _ _ _ _ _ w) as [[[_ a]|err] w']; simpl; [|lia].
  pose proof (early_stopping_all_bound m initial_globals a (or_intror eq_refl)) as Hstep.
  destruct (early_stopping m initial_globals a) as [g'|g'|e]; simpl; [|lia..].
  intros _.
  exact (for_epochs_all_bound criterion backward adam_step m train_loader
           val_loader (seq 1 19) g' 1 [a] w' Hstep).
Qed.

End Cell.

End Training.

(** ** A small run of the training cell

    One input feature, one hidden unit, two classes.  The optimizer of this
    run lowers the bias of the first logit by one in every step, so that
    validation accuracy is best after the first epoch and falls later. *)

Module Scenario.
Import Classifier Training.

Definition m0 : NewsGroupClassifier :=
  {| weight0 := 1; bias0 := 2; weight2 := 3; bias2 := 4 |}%positive.

Definition p0 : params :=
  {| W1 := {| in_features := 1; entries := [[1]] |}; b1 := [0];
     W2 := {| in_features := 1; entries := [[0]; [0]] |}; b2 := [2; 0] |}%Q.

Definition drift_backward (p : params) (b : batch) : params :=
  {| W1 := {| in_features := 1; entries := [[0]] |}; b1 := [0];
     W2 := {| in_features := 1; entries := [[0]; [0]] |}; b2 := [1; 0] |}%Q.

Definition drift_step (steps : nat) (p grads : params) : nat * params :=
  (S steps,
   {| W1 := W1 p; b1 := b1 p; W2 := W2 p;
      b2 := zip_with Qminus (b2 p) (b2 grads) |}).

Definition no_loss (outputs : mat) (labels : list Z) : Q := 0.

Definition w0 : world (optimizer:=nat) :=
  {| heap := write_heap m0 p0 ∅; training := true; adam := 0;
     torch_rng := {| Random.oracle := λ n, n; Random.position := 0 |} |}.

Definition train_loader : DataLoader :=
  {| dataset := [([1%Q], 0%Z)]; batch_size := 32; shuffle := true |}.

(** Validation data that the model gets right at first. *)
Definition val_loader : DataLoader :=
  {| dataset := [([1%Q], 0%Z)]; batch_size := 32; shuffle := false |}.

(** Validation data that the model gets wrong after the first epoch. *)
Definition val_loader_missed : DataLoader :=
  {| dataset := [([1%Q], 1%Z)]; batch_size := 32; shuffle := false |}.

Definition run (val : DataLoader) : outcome :=
  train_model no_loss drift_backward drift_step m0 train_loader val w0.

(** The state after the first epoch, the one with the best validation
    accuracy of the run on [val_loader]. *)
Definition after_first_epoch : world :=
  (train_epoch no_loss drift_backward drift_step m0 train_loader w0).2.

(** C2: a run in which the first epoch has validation accuracy 0.  The
    accuracy does not exceed [best_val_acc = 0], so the body goes to
    [patience += 1] while [patience] is not bound: the cell stops with a
    [NameError] after one epoch; the counter is not incremented, and the
    loop is left neither through the patience threshold nor at the maximum
    number of epochs. *)
Theorem first_epoch_without_improvement :
  ended (run val_loader_missed) = Raised NameError ∧
  iterations (run val_loader_missed) = 1 ∧
  val_accs (run val_loader_missed) = [0%Q] ∧
  patience (vars (run val_loader_missed)) = None.
Proof. by vm_compute. Qed.

(** C3: a run in which validation accuracy is 1 after the first epoch and
    0 from the third epoch on.  The loop is left through [break] in the
    seventh epoch with [best_val_acc = 1]; the tensors of [best_model] then
    hold the values after the seventh epoch (second-layer bias [-5; 0],
    validation accuracy 0), not those after the first (bias [1; 0]). *)
Theorem best_model_holds_last_epoch :
  ended (run val_loader) = EarlyStop ∧
  val_accs (run val_loader) = [1; 1; 0; 0; 0; 0; 0]%Q ∧
  best_val_acc (vars (run val_loader)) = 1%Q ∧
  (∃ sd, best_model (vars (run val_loader)) = Some sd ∧
     tensors_of sd (heap after_first_epoch) !! "model.2.bias"%string
       = Some (Vector [1; 0]%Q) ∧
     tensors_of sd (heap (final (run val_loader))) !! "model.2.bias"%string
       = Some (Vector [-5; 0]%Q)) ∧
  (evaluate no_loss m0 val_loader (final (run val_loader))).1 = Ok (0%Q, 0%Q).
Proof.
  split_and!; try by vm_compute.
  exists (state_dict m0). split_and!; by vm_compute.
Qed.

(** Two states with the same parameter values: one in training mode with a
    fresh optimizer, one in evaluation mode after 3 optimizer steps. *)
Definition w0_eval : world (optimizer:=nat) :=
  {| heap := heap w0; training := false; adam := 3; torch_rng := torch_rng w0 |}.

Lemma forward_deterministic_witness :
  tensors_of (state_dict m0) (heap w0) = tensors_of (state_dict m0) (heap w0_eval) ∧
  (call m0 [[1%Q]] w0).1 = (call m0 [[1%Q]] w0_eval).1.
Proof. split; [reflexivity | apply forward_deterministic; reflexivity]. Defined.

Lemma forward_two_layer_witness :
  well_shaped 1 1 2 p0 ∧ length [1%Q] = 1 ∧
  forward p0 [1%Q] = Ok (two_layer_spec p0 [1%Q]) ∧
  length (two_layer_spec p0 [1%Q]) = 2.
Proof.
  assert (well_shaped 1 1 2 p0) as Hp.
  { split; simpl; try reflexivity; split; simpl; repeat constructor. }
  split; [exact Hp|]. split; [reflexivity|].
  apply (forward_two_layer 1 1 2 p0 [1%Q] Hp). reflexivity.
Defined.

(** *** The small run again *)

Lemma p0_shapes : well_shaped 1 1 2 p0.
Proof. split; simpl; try reflexivity; split; simpl; repeat constructor. Defined.

Lemma forward_wrong_width_witness :
  well_shaped 1 1 2 p0 ∧ 1 ≤ 1 ∧ length [1%Q; 1%Q] ≠ 1 ∧
  forward p0 [1%Q; 1%Q] = Raise RuntimeError.
Proof.
  assert (length [1%Q; 1%Q] ≠ 1) as Hx by (simpl; lia).
  split; [exact p0_shapes|]. split; [lia|]. split; [exact Hx|].
  apply (forward_wrong_width 1 1 2 p0 [1%Q; 1%Q] p0_shapes); [lia | exact Hx].
Defined.

Lemma logits_unbounded_witness :
  well_shaped 1 1 2 p0 ∧ length [1%Q] = 1 ∧ 0 < 2 ∧
  ∃ p' v, well_shaped 1 1 2 p' ∧ forward p' [1%Q] = Ok (two_layer_spec p' [1%Q]) ∧
          two_layer_spec p' [1%Q] !! 0 = Some v ∧ (100 < v)%Q.
Proof.
  split; [exact p0_shapes|]. split; [reflexivity|]. split; [lia|].
  apply (logits_unbounded 1 1 2 p0 [1%Q] 0 100 p0_shapes); [reflexivity | lia].
Defined.

(** A loader over a dataset without samples. *)
Definition empty_loader : DataLoader :=
  {| dataset := []; batch_size := 32; shuffle := false |}.

Lemma empty_loader_raises_witness :
  dataset empty_loader = [] ∧
  (evaluate no_loss m0 empty_loader w0).1 = Raise ZeroDivisionError ∧
  (train_epoch no_loss drift_backward drift_step m0 empty_loader w0).1
    = Raise ZeroDivisionError ∧
  heap (train_epoch no_loss drift_backward drift_step m0 empty_loader w0).2 = heap w0.
Proof. split; [reflexivity|]. apply empty_loader_raises. reflexivity. Defined.

Lemma evaluate_val_loader :
  evaluate no_loss m0 val_loader w0
    = (Ok (0%Q, 1%Q), (evaluate no_loss m0 val_loader w0).2).
Proof. vm_compute. reflexivity. Defined.

Lemma accuracy_bounds_witness :
  (evaluate no_loss m0 val_loader w0
     = (Ok (0%Q, 1%Q), (evaluate no_loss m0 val_loader w0).2) ∨
   train_epoch no_loss drift_backward drift_step m0 val_loader w0
     = (Ok (0%Q, 1%Q), (evaluate no_loss m0 val_loader w0).2)) ∧
  (0 <= 1 <= 1)%Q.
Proof.
  split; [left; exact evaluate_val_loader|].
  apply (accuracy_bounds no_loss drift_backward drift_step m0 val_loader w0 0 1
           (evaluate no_loss m0 val_loader w0).2).
  left. exact evaluate_val_loader.
Defined.

Lemma evaluate_accuracy_witness :
  evaluate no_loss m0 val_loader w0
    = (Ok (0%Q, 1%Q), (evaluate no_loss m0 val_loader w0).2) ∧
  ∃ p, (read_params m0 w0).1 = Ok p ∧
       1%Q = (inject_Z (Z.of_nat (length (correctly_classified p (dataset val_loader))))
              / inject_Z (Z.of_nat (length (dataset val_loader))))%Q.
Proof.
  split; [exact evaluate_val_loader|].
  apply (evaluate_accuracy no_loss m0 val_loader w0 0 1
           (evaluate no_loss m0 val_loader w0).2).
  exact evaluate_val_loader.
Defined.

Lemma early_stop_record_witness :
  ended (run val_loader) = EarlyStop ∧
  ∃ pre tail, val_accs (run val_loader)
                = pre ++ best_val_acc (vars (run val_loader)) :: tail ∧
    length tail = Z.to_nat (PATIENCE + 1) ∧
    (∀ a, a ∈ pre → (a < best_val_acc (vars (run val_loader)))%Q) ∧
    (∀ a, a ∈ tail → (a <= best_val_acc (vars (run val_loader)))%Q).
Proof.
  assert (ended (run val_loader) = EarlyStop) as Hend by (vm_compute; reflexivity).
  split; [exact Hend|].
  apply (early_stop_record no_loss drift_backward drift_step m0 train_loader
           val_loader w0). exact Hend.
Defined.

Lemma later_epochs_bound_witness :
  1 < iterations (run val_loader) ∧
  is_Some (patience (vars (run val_loader))) ∧
  best_model (vars (run val_loader)) = Some (state_dict m0) ∧
  (0 < best_val_acc (vars (run val_loader)))%Q.
Proof.
  assert (1 < iterations (run val_loader)) as Hit by (vm_compute; lia).
  split; [exact Hit|].
  apply (later_epochs_bound no_loss drift_backward drift_step m0 train_loader
           val_loader w0). exact Hit.
Defined.

Lemma train_model_best_val_acc_witness :
  0%Q ∈ val_accs (run val_loader) ∧
  (0 <= best_val_acc (vars (run val_loader)))%Q.
Proof.
  assert (0%Q ∈ val_accs (run val_loader)) as Hin.
  { vm_compute. do 2 right. left. }
  split; [exact Hin|].
  apply (train_model_best_val_acc no_loss drift_backward drift_step m0 train_loader
           val_loader w0). exact Hin.
Defined.

Lemma best_model_is_live_witness :
  best_model (vars (run val_loader)) = Some (state_dict m0) ∧
  state_dict m0 = state_dict m0 ∧
  tensors_of (state_dict m0) (heap (final (run val_loader)))
    = tensors_of (state_dict m0) (heap (final (run val_loader))).
Proof.
  assert (best_model (vars (run val_loader)) = Some (state_dict m0)) as Hsd
    by (vm_compute; reflexivity).
  split; [exact Hsd|].
  apply (best_model_is_live no_loss drift_backward drift_step m0 train_loader
           val_loader w0). exact Hsd.
Defined.

Lemma first_epoch_missed :
  train_and_validate no_loss drift_backward drift_step m0 train_loader
      val_loader_missed w0
    = (Ok (0%Q, 0%Q),
       (train_and_validate no_loss drift_backward drift_step m0 train_loader
          val_loader_missed w0).2).
Proof. vm_compute. reflexivity. Defined.

Lemma train_model_unbound_patience_witness :
  train_and_validate no_loss drift_backward drift_step m0 train_loader
      val_loader_missed w0
    = (Ok (0%Q, 0%Q),
       (train_and_validate no_loss drift_backward drift_step m0 train_loader
          val_loader_missed w0).2) ∧
  (0 <= 0)%Q ∧
  run val_loader_missed
    = {| ended := Raised NameError; vars := initial_globals;
         final := (train_and_validate no_loss drift_backward drift_step m0
                     train_loader val_loader_missed w0).2;
         iterations := 1; val_accs := [0%Q] |}.
Proof.
  assert (0 <= 0)%Q as Hle by (vm_compute; discriminate).
  split; [exact first_epoch_missed|]. split; [exact Hle|].
  apply (train_model_unbound_patience no_loss drift_backward drift_step m0
           train_loader val_loader_missed w0 0 0 _ first_epoch_missed Hle).
Defined.

End Scenario.

(** ** Inference: [predict_category] *)

Module Inference.
Import Classifier Training.

Definition sum (l : list R) : R := foldr Rplus 0%R l.

(** [nn.functional.softmax]: each entry is [exp x] over the sum of the
    [exp] of all entries. *)
Definition softmax (z : list R) : list R :=
  let total := sum (map exp z) in
  map (λ x, exp x / total)%R z.

Section Predict.
Context {optimizer : Type}.

(** The embedding service: what [embed_fn] returns for a text. *)
Variable embed_fn : str → result vec.

(** The statements of [predict_category] between the embedding call and
    the printing: the input becomes a batch of one row, the model is put
    in evaluation mode and called, and softmax is taken along the class
    dimension of the only row. *)
Definition probabilities (m : NewsGroupClassifier) (embedding : vec) :
    M (optimizer:=optimizer) (list R) :=
  set_training false;;
  output ← call m [embedding];
  match output with
  | row :: _ => mret (softmax (map Q2R row))
  | [] => lift (Raise IndexError)
  end.

(** The lines that are printed: a class name and its probability in per
    cent; [probabilities[i]] raises when there are more names than
    classes. *)
Fixpoint report (class_names : list str) (i : nat) (probs : list R) :
    result (list (str * R)) :=
  match class_names with
  | [] => Ok []
  | category :: names =>
      match probs !! i, report names (S i) probs with
      | Some pr, Ok lines => Ok ((category, pr * 100)%R :: lines)
      | None, _ => Raise IndexError
      | _, Raise e => Raise e
      end
  end.

Definition predict_category (text : str) (m : NewsGroupClassifier)
    (class_names : list str) : M (optimizer:=optimizer) (list (str * R)) :=
  embedding ← lift (embed_fn text);
  probs ← probabilities m embedding;
  lift (report class_names 0 probs).

End Predict.

Lemma sum_exp_pos z : z ≠ [] → (0 < sum (map exp z))%R.
Proof.
  destruct z as [|x z]; [done|]. intros _. simpl.
  assert (0 <= sum (map exp z))%R as Hz.
  { induction z as [|y z IH]; simpl; [lra|]. pose proof (exp_pos y). lra. }
  pose proof (exp_pos x). lra.
Qed.

Lemma sum_scaled (t : R) z :
  sum (map (λ x, exp x / t)%R z) = (sum (map exp z) / t)%R.
Proof.
  induction z as [|x z IH]; simpl.
  - unfold Rdiv. by rewrite Rmult_0_l.
  - rewrite IH. unfold Rdiv. by rewrite Rmult_plus_distr_r.
Qed.

Lemma sum_softmax z : z ≠ [] → sum (softmax z) = 1%R.
Proof.
  intros Hne. unfold softmax. rewrite sum_scaled.
  pose proof (sum_exp_pos _ Hne). apply Rdiv_diag. lra.
Qed.

(** C9: for every vector of [K ≥ 1] logits (finite numbers), the class
    probabilities that softmax gives sum to 1 over the reals. *)
Theorem softmax_sums_to_one (logits : vec) :
  logits ≠ [] → sum (softmax (map Q2R logits)) = 1%R.
Proof. intros Hne. apply sum_softmax. by destruct logits. Qed.

Lemma softmax_sums_to_one_witness :
  [2; 0]%Q ≠ [] ∧ sum (softmax (map Q2R [2; 0]%Q)) = 1%R.
Proof. split; [discriminate | apply softmax_sums_to_one; discriminate]. Defined.

(** The probabilities that [predict_category] computes with a model of
    [K + 1] classes sum to 1, and there are [K + 1] of them. *)
Corollary probabilities_sum_to_one {optimizer} D H K (m : NewsGroupClassifier)
    (embedding : vec) (w w' : world (optimizer:=optimizer)) p probs :
  read_params m w = (Ok p, w) → well_shaped D H (S K) p → length embedding = D →
  probabilities m embedding w = (Ok probs, w') →
  sum probs = 1%R ∧ length probs = S K.
Proof.
  intros Hp Hshape Hlen. unfold probabilities, call, set_training, mbind, M_bind, lift.
  pose proof (forward_ok D H (S K) p embedding Hshape Hlen) as Hf.
  pose proof (length_two_layer_spec D H (S K) p embedding Hshape) as HK.
  unfold read_params in *. simpl in *.
  repeat case_match; simplify_eq; simpl in *; try done.
  all: rewrite ?Hf in *; simplify_eq.
  intros [= <- _]. split.
  - apply sum_softmax. by destruct (two_layer_spec _ _).
  - unfold softmax. by rewrite !length_map.
Qed.

(** *** What [predict_category] prints, and when it fails *)

Lemma sum_scale (c : R) l : sum (map (λ x, x * c)%R l) = (sum l * c)%R.
Proof. induction l as [|x l IH]; simpl; [lra|]. rewrite IH. lra. Qed.

(** The loop over [enumerate(class_names)] reads the entries
    [i, i + 1, ...] of the probabilities. *)
Lemma report_Ok class_names i probs :
  i + length class_names ≤ length probs →
  report class_names i probs
    = Ok (zip class_names (map (λ pr, pr * 100)%R (take (length class_names) (drop i probs)))).
Proof.
  revert i. induction class_names as [|c names IH]; intros i Hlen; simpl in *; [done|].
  rewrite IH by lia.
  destruct (probs !! i) as [pr|] eqn:Hpr.
  - by rewrite (drop_S _ _ _ Hpr).
  - apply lookup_ge_None in Hpr. lia.
Qed.

Lemma report_IndexError class_names i probs :
  class_names ≠ [] → length probs < i + length class_names →
  report class_names i probs = Raise IndexError.
Proof.
  revert i. induction class_names as [|c names IH]; intros i Hne Hlen; simpl in *; [done|].
  destruct (probs !! i) as [pr|] eqn:Hpr; [|done].
  apply lookup_lt_Some in Hpr. rewrite IH; [done | | lia].
  intros ->. simpl in Hlen. lia.
Qed.

Section Outcome.
Context {optimizer : Type}.
Variable embed_fn : str → result vec.
Variables (D H K : nat) (m : NewsGroupClassifier) (p : params).
Variable w : world (optimizer:=optimizer).
Hypothesis parameters : (read_params m w).1 = Ok p.
Hypothesis shapes : well_shaped D H K p.

Lemma probabilities_value embedding :
  length embedding = D →
  probabilities m embedding w
    = (Ok (softmax (map Q2R (two_layer_spec p embedding))), (set_training false w).2).
Proof.
  intros Hlen. unfold probabilities.
  rewrite (bind_Ok _ _ w () (set_training false w).2) by done.
  assert (call m [embedding] (set_training false w).2
            = (Ok [two_layer_spec p embedding], (set_training false w).2)) as Hcall.
  { unfold call.
    rewrite (bind_Ok _ _ _ p (set_training false w).2).
    - unfold lift. simpl. by rewrite (forward_ok D H K p embedding shapes Hlen).
    - rewrite (surjective_pairing (read_params _ _)), read_params_state.
      by rewrite (read_params_heap m _ w), parameters. }
  by rewrite (bind_Ok _ _ _ _ _ Hcall).
Qed.

(** X15: with more class names than the model has classes,
    [predict_category] raises an [IndexError] at [probabilities[i]]. *)
Theorem predict_category_too_many_names text embedding class_names :
  embed_fn text = Ok embedding → length embedding = D →
  K < length class_names →
  (predict_category embed_fn text m class_names w).1 = Raise IndexError.
Proof.
  intros Hemb Hlen Hnames. unfold predict_category. rewrite Hemb.
  rewrite (bind_Ok _ _ w embedding w) by done.
  rewrite (bind_Ok _ _ _ _ _ (probabilities_value embedding Hlen)).
  unfold lift. simpl. rewrite report_IndexError; [done | intros ->; simpl in Hnames; lia |].
  unfold softmax. rewrite !length_map, (length_two_layer_spec D H K p embedding shapes).
  simpl. lia.
Qed.

(** X16: with as many class names as the model has classes (at least
    one), [predict_category] prints one line per class name, in the order
    of [class_names], and the printed percentages sum to 100. *)
Theorem predict_category_percentages text embedding class_names :
  embed_fn text = Ok embedding → length embedding = D →
  length class_names = K → 1 ≤ K →
  ∃ lines, (predict_category embed_fn text m class_names w).1 = Ok lines ∧
    lines.*1 = class_names ∧ sum lines.*2 = 100%R.
Proof.
  intros Hemb Hlen Hnames HK. unfold predict_category. rewrite Hemb.
  rewrite (bind_Ok _ _ w embedding w) by done.
  rewrite (bind_Ok _ _ _ _ _ (probabilities_value embedding Hlen)).
  unfold lift. simpl.
  pose proof (length_two_layer_spec D H K p embedding shapes) as HlenK.
  assert (length (softmax (map Q2R (two_layer_spec p embedding))) = K) as Hprobs
    by (unfold softmax; by rewrite !length_map).
  rewrite report_Ok by (simpl; lia). eexists. split; [done|].
  rewrite drop_0, firstn_all2 by lia. split.
  - apply fst_zip. rewrite length_map. lia.
  - rewrite snd_zip by (rewrite length_map; lia).
    rewrite sum_scale, sum_softmax; [lra|].
    destruct (two_layer_spec p embedding); [simpl in HlenK; lia | done].
Qed.

(** X17: [predict_category] writes no tensor and does not touch the
    optimizer, and once the embedding is there it leaves the model in
    evaluation mode. *)
Theorem predict_category_effects text embedding class_names :
  embed_fn text = Ok embedding →
  let w' := (predict_category embed_fn text m class_names w).2 in
  heap w' = heap w ∧ adam w' = adam w ∧ training w' = false.
Proof.
  clear parameters shapes. intros Hemb.
  unfold predict_category, probabilities, call, lift, mbind, M_bind.
  rewrite Hemb. simpl.
  pose proof (read_params_state m (set_training false w).2) as Hs. simpl in Hs.
  destruct (read_params m _) as [[q|e] w1]; simpl in *; subst w1; [|done].
  by destruct (forward q embedding) as [row|e].
Qed.

End Outcome.

(** *** A model of two classes *)

(** An embedding service that returns the same embedding for every
    text. *)
Definition embed_one (text : str) : result vec := Ok [1%Q].

Definition two_names : list str := [py_str "sci.med"; py_str "sci.space"].
Definition three_names : list str := two_names ++ [py_str "rec.autos"].

Lemma parameters_w0 : (read_params Scenario.m0 Scenario.w0).1 = Ok Scenario.p0.
Proof. vm_compute. reflexivity. Defined.

Lemma predict_category_too_many_names_witness :
  (read_params Scenario.m0 Scenario.w0).1 = Ok Scenario.p0 ∧
  well_shaped 1 1 2 Scenario.p0 ∧
  embed_one [] = Ok [1%Q] ∧ length [1%Q] = 1 ∧ 2 < length three_names ∧
  (predict_category embed_one [] Scenario.m0 three_names Scenario.w0).1
    = Raise IndexError.
Proof.
  assert (2 < length three_names) as Hnames by (simpl; lia).
  split; [exact parameters_w0|]. split; [exact Scenario.p0_shapes|].
  split; [reflexivity|]. split; [reflexivity|]. split; [exact Hnames|].
  apply (predict_category_too_many_names embed_one 1 1 2 Scenario.m0 Scenario.p0
           Scenario.w0 parameters_w0 Scenario.p0_shapes [] [1%Q] three_names);
    [reflexivity | reflexivity | exact Hnames].
Defined.

Lemma predict_category_percentages_witness :
  (read_params Scenario.m0 Scenario.w0).1 = Ok Scenario.p0 ∧
  well_shaped 1 1 2 Scenario.p0 ∧
  embed_one [] = Ok [1%Q] ∧ length [1%Q] = 1 ∧ length two_names = 2 ∧ 1 ≤ 2 ∧
  ∃ lines, (predict_category embed_one [] Scenario.m0 two_names Scenario.w0).1
             = Ok lines ∧
    lines.*1 = two_names ∧ sum lines.*2 = 100%R.
Proof.
  split; [exact parameters_w0|]. split; [exact Scenario.p0_shapes|].
  split; [reflexivity|]. split; [reflexivity|]. split; [reflexivity|].
  split; [lia|].
  apply (predict_category_percentages embed_one 1 1 2 Scenario.m0 Scenario.p0
           Scenario.w0 parameters_w0 Scenario.p0_shapes [] [1%Q] two_names);
    [reflexivity | reflexivity | reflexivity | lia].
Defined.

Lemma predict_category_effects_witness :
  embed_one [] = Ok [1%Q] ∧
  heap (predict_category embed_one [] Scenario.m0 two_names Scenario.w0).2
    = heap Scenario.w0 ∧
  adam (predict_category embed_one [] Scenario.m0 two_names Scenario.w0).2
    = adam Scenario.w0 ∧
  training (predict_category embed_one [] Scenario.m0 two_names Scenario.w0).2 = false.
Proof.
  split; [reflexivity|].
  apply (predict_category_effects embed_one Scenario.m0 Scenario.w0 [] [1%Q] two_names).
  reflexivity.
Defined.

End Inference.

(** ** Query validation: [validate_query]

    The function-calling notebook checks the SQL text that the agent
    proposes before it is run. *)

Module QueryValidation.

Section Validate.

(** [str.lower] on a text with a non-ASCII code point, and [str.isspace]
    on a non-ASCII code point: the Unicode tables.  The ASCII part of both
    is written out. *)
Variable unicode_lower : str → str.
Variable unicode_space : codepoint → bool.

Definition is_ascii (c : codepoint) : bool := (c <? 128)%N.

Definition ascii_lower (c : codepoint) : codepoint :=
  if ((65 <=? c) && (c <=? 90))%N then (c + 32)%N else c.

(** [sql.lower()]. *)
Definition lower (s : str) : str :=
  if forallb is_ascii s then map ascii_lower s else unicode_lower s.

(** The ASCII code points for which [isspace] holds: tab to carriage
    return, the four separators, and the space. *)
Definition ascii_space (c : codepoint) : bool :=
  ((9 <=? c) && (c <=? 13) || (28 <=? c) && (c <=? 32))%N.

Definition isspace (c : codepoint) : bool :=
  if is_ascii c then ascii_space c else unicode_space c.

Fixpoint lstrip (s : str) : str :=
  match s with
  | [] => []
  | c :: tl => if isspace c then lstrip tl else s
  end.

Definition rstrip (s : str) : str := reverse (lstrip (reverse s)).

(** [sql.strip()]. *)
Definition strip (s : str) : str := rstrip (lstrip s).

(** [s.startswith(prefix)]. *)
Fixpoint startswith (s prefix : str) {struct prefix} : bool :=
  match prefix, s with
  | [], _ => true
  | p :: prefix', c :: s' => (p =? c)%N && startswith s' prefix'
  | _ :: _, [] => false
  end.

(** [sub in s]. *)
Fixpoint contains (sub s : str) {struct s} : bool :=
  startswith s sub ||
  match s with
  | [] => false
  | _ :: tl => contains sub tl
  end.

Definition dangerous_keywords : list str :=
  map py_str ["drop"; "delete"; "update"; "insert"; "alter"; "truncate"]%string.

Definition validate_query (sql : str) : bool :=
  let sql := lower sql in
  if negb (startswith (strip sql) (py_str "select")) then false
  else negb (existsb (λ keyword, contains keyword sql) dangerous_keywords).

(** *** Lower case and white space on ASCII texts *)

Lemma lower_ascii s : forallb is_ascii s = true → lower s = map ascii_lower s.
Proof. intros Hs. unfold lower. by rewrite Hs. Qed.

Lemma ascii_space_range c :
  ascii_space c = true ↔ (9 ≤ c ≤ 13 ∨ 28 ≤ c ≤ 32)%N.
Proof.
  unfold ascii_space. by rewrite orb_true_iff, !andb_true_iff, !N.leb_le.
Qed.

Lemma ascii_space_is_ascii c : ascii_space c = true → is_ascii c = true.
Proof. intros Hc%ascii_space_range. apply N.ltb_lt. lia. Qed.

Lemma ascii_space_lower c : ascii_space c = true → ascii_lower c = c.
Proof.
  intros Hc%ascii_space_range. unfold ascii_lower.
  destruct ((65 <=? c) && (c <=? 90))%N eqn:Hup; [|done].
  apply andb_prop in Hup as [?%N.leb_le ?%N.leb_le]. lia.
Qed.

Lemma isspace_ascii c : ascii_space c = true → isspace c = true.
Proof. intros Hc. unfold isspace. by rewrite (ascii_space_is_ascii c Hc). Qed.

Lemma lower_spaces ws s :
  forallb ascii_space ws = true → forallb is_ascii s = true →
  lower (ws ++ s) = ws ++ map ascii_lower s.
Proof.
  intros Hws Hs. rewrite lower_ascii.
  - rewrite map_app. f_equal.
    induction ws as [|c ws IH]; simpl in *; [done|].
    apply andb_prop in Hws as [Hc Hws]. by rewrite (ascii_space_lower c Hc), IH.
  - rewrite forallb_app, Hs, andb_true_r.
    induction ws as [|c ws IH]; simpl in *; [done|].
    apply andb_prop in Hws as [Hc Hws]. by rewrite (ascii_space_is_ascii c Hc), IH.
Qed.

Lemma lstrip_spaces ws s : forallb ascii_space ws = true → lstrip (ws ++ s) = lstrip s.
Proof.
  induction ws as [|c ws IH]; simpl; [done|]. intros [Hc Hws]%andb_prop.
  by rewrite (isspace_ascii c Hc), IH.
Qed.

(** What [lstrip] removes is white space, and what [rstrip] keeps is a
    prefix. *)
Lemma lstrip_split s :
  ∃ ws, s = ws ++ lstrip s ∧ forallb isspace ws = true.
Proof.
  induction s as [|c s (ws & IH & Hws)]; simpl; [by exists []|].
  destruct (isspace c) eqn:Hc.
  - exists (c :: ws). simpl. rewrite Hc, Hws. split; [by f_equal | done].
  - by exists [].
Qed.

Lemma rstrip_prefix s : ∃ ws, s = rstrip s ++ ws.
Proof.
  destruct (lstrip_split (reverse s)) as (ws & Hs & _).
  exists (reverse ws). unfold rstrip. rewrite <- reverse_app, <- Hs.
  by rewrite reverse_involutive.
Qed.

(** *** Prefixes and substrings *)

Lemma startswith_app sub post : startswith (sub ++ post) sub = true.
Proof. induction sub as [|c sub IH]; simpl; [done|]. by rewrite N.eqb_refl. Qed.

Lemma startswith_inv s sub : startswith s sub = true → ∃ post, s = sub ++ post.
Proof.
  revert s. induction sub as [|p sub IH]; intros s; simpl; [by exists s|].
  destruct s as [|c s]; [done|]. intros [->%N.eqb_eq [post ->]%IH]%andb_prop.
  by exists post.
Qed.

Lemma contains_app sub pre post : contains sub (pre ++ sub ++ post) = true.
Proof.
  induction pre as [|c pre IH]; simpl.
  - destruct (sub ++ post) eqn:Heq; simpl; rewrite <- ?Heq; by rewrite startswith_app.
  - by rewrite IH, orb_true_r.
Qed.

Lemma contains_after_space sub c s :
  match sub with k :: _ => ascii_space k = false | [] => False end →
  ascii_space c = true → contains sub (c :: s) = contains sub s.
Proof.
  destruct sub as [|k sub]; [done|]. intros Hk Hc. simpl.
  destruct (k =? c)%N eqn:Heq; [|done]. apply N.eqb_eq in Heq. congruence.
Qed.

Lemma contains_after_spaces sub ws s :
  match sub with k :: _ => ascii_space k = false | [] => False end →
  forallb ascii_space ws = true → contains sub (ws ++ s) = contains sub s.
Proof.
  intros Hsub. induction ws as [|c ws IH]; [done|]. intros [Hc Hws]%andb_prop.
  rewrite <- app_comm_cons, contains_after_space by done. by apply IH.
Qed.

Lemma dangerous_keywords_letters :
  Forall (λ sub, match sub with k :: _ => ascii_space k = false | [] => False end)
         dangerous_keywords.
Proof. repeat constructor. Qed.

(** *** What is rejected and what is accepted *)

(** X18: a text of ASCII characters in which one of the six keywords
    occurs anywhere, in any mix of upper and lower case (inside an
    identifier or a string literal as well), is rejected. *)
Theorem validate_query_keyword_anywhere pre keyword post :
  forallb is_ascii (pre ++ keyword ++ post) = true →
  map ascii_lower keyword ∈ dangerous_keywords →
  validate_query (pre ++ keyword ++ post) = false.
Proof.
  intros Hascii Hkw. unfold validate_query. rewrite (lower_ascii _ Hascii).
  cbv zeta. destruct (negb (startswith _ _)); [done|].
  apply negb_false_iff, existsb_exists.
  exists (map ascii_lower keyword). split; [by apply list_elem_of_In|].
  rewrite !map_app. apply contains_app.
Qed.

(** X19: white space of the ASCII range in front of an ASCII text does not
    change the verdict. *)
Theorem validate_query_leading_space ws sql :
  forallb ascii_space ws = true → forallb is_ascii sql = true →
  validate_query (ws ++ sql) = validate_query sql.
Proof.
  intros Hws Hsql. unfold validate_query.
  rewrite (lower_spaces ws sql Hws Hsql), (lower_ascii sql Hsql). cbv zeta.
  unfold strip. rewrite (lstrip_spaces ws _ Hws).
  assert (existsb (λ keyword, contains keyword (ws ++ map ascii_lower sql))
            dangerous_keywords
          = existsb (λ keyword, contains keyword (map ascii_lower sql))
              dangerous_keywords) as ->; [|done].
  pose proof dangerous_keywords_letters as Hall.
  induction Hall as [|sub subs Hsub Hsubs IH]; simpl; [done|].
  by rewrite (contains_after_spaces sub ws _ Hsub Hws), IH.
Qed.

(** X20: an ASCII text that is accepted reads, in lower case, as white
    space followed by [select], and none of the six keywords occurs in it
    anywhere. *)
Theorem validate_query_accepted sql :
  forallb is_ascii sql = true → validate_query sql = true →
  (∃ ws rest, map ascii_lower sql = ws ++ py_str "select" ++ rest ∧
              forallb isspace ws = true) ∧
  (∀ keyword pre post, keyword ∈ dangerous_keywords →
     map ascii_lower sql ≠ pre ++ keyword ++ post).
Proof.
  intros Hascii. unfold validate_query. rewrite (lower_ascii _ Hascii). cbv zeta.
  destruct (startswith _ _) eqn:Hstart; cbn [negb]; [|done].
  intros Hnone%negb_true_iff. split.
  - apply startswith_inv in Hstart as [post Hpost].
    destruct (rstrip_prefix (lstrip (map ascii_lower sql))) as [tail Htail].
    destruct (lstrip_split (map ascii_lower sql)) as (ws & Hsplit & Hws).
    exists ws, (post ++ tail). split; [|done].
    rewrite Hsplit at 1. rewrite Htail. unfold strip in Hpost. rewrite Hpost.
    by rewrite <- !app_assoc.
  - intros keyword pre post Hkw Heq.
    assert (existsb (λ keyword, contains keyword (map ascii_lower sql))
              dangerous_keywords = true) as Hsome; [|congruence].
    apply existsb_exists. exists keyword. split; [by apply list_elem_of_In|].
    rewrite Heq. apply contains_app.
Qed.

End Validate.

(** A query on a column whose name has a keyword in it. *)
Definition updated_at_query : str * str * str :=
  (py_str "SELECT name, last_", py_str "Update", py_str "d FROM products;").

Lemma validate_query_keyword_anywhere_witness :
  forallb is_ascii (updated_at_query.1.1 ++ updated_at_query.1.2 ++ updated_at_query.2)
    = true ∧
  map ascii_lower updated_at_query.1.2 ∈ dangerous_keywords ∧
  ∀ unicode_lower unicode_space,
    validate_query unicode_lower unicode_space
      (updated_at_query.1.1 ++ updated_at_query.1.2 ++ updated_at_query.2) = false.
Proof.
  assert (map ascii_lower updated_at_query.1.2 ∈ dangerous_keywords) as Hkw.
  { vm_compute. do 2 right. left. }
  split; [reflexivity|]. split; [exact Hkw|]. intros unicode_lower unicode_space.
  apply validate_query_keyword_anywhere; [reflexivity | exact Hkw].
Defined.

Lemma validate_query_leading_space_witness :
  forallb ascii_space (py_str "  ") = true ∧
  forallb is_ascii (py_str "SELECT * FROM products;") = true ∧
  ∀ unicode_lower unicode_space,
    validate_query unicode_lower unicode_space
      (py_str "  " ++ py_str "SELECT * FROM products;")
    = validate_query unicode_lower unicode_space (py_str "SELECT * FROM products;").
Proof.
  split; [reflexivity|]. split; [reflexivity|]. intros unicode_lower unicode_space.
  apply validate_query_leading_space; reflexivity.
Defined.

(** A query that is accepted. *)
Definition products_query : str := py_str " Select * FROM products;".

Lemma validate_query_accepted_witness :
  forallb is_ascii products_query = true ∧
  validate_query (λ s, s) (λ _, false) products_query = true ∧
  (∃ ws rest, map ascii_lower products_query = ws ++ py_str "select" ++ rest ∧
              forallb (isspace (λ _, false)) ws = true) ∧
  (∀ keyword pre post, keyword ∈ dangerous_keywords →
     map ascii_lower products_query ≠ pre ++ keyword ++ post).
Proof.
  split; [reflexivity|]. split; [reflexivity|].
  apply (validate_query_accepted (λ s, s) (λ _, false) products_query); reflexivity.
Defined.

End QueryValidation.
